(** * parallel_server_client: a shallow embedding

    Two programs are modelled.

    - [src/server_client.cpp]: a task queue served by a worker thread.  The
      globals [tasks], [results] and [nextid], the [Server] object and the
      worker threads it has spawned make up a [State].  Every function of
      the program is a function on that state, and a run of the program is
      a schedule: a list of operations (calls made by client threads, steps
      of worker threads) performed one after the other.  A call that would
      wait on a condition variable or for the lock leaves the state as it
      is and reports that it waits; scheduling it again later resumes it.
      A worker is scheduled in three steps: getting past the wait and the
      test of the stop token with the lock [mut] in hand, popping an id and
      releasing the lock, executing the task; everything else may happen
      in between, [Server::stop] in particular, which does not take the
      lock.  [add_task] and [request_result] are taken as one step each,
      made when the lock is free, and the accesses to [results] that the
      program makes without holding the lock are taken as atomic.

      A worker that finds nothing to do stays at the head of its loop: the
      model does not tell a worker asleep in [cond_var.wait] from one about
      to test the loop condition, and lets it test the predicate of the
      wait again whenever it is scheduled, as after a notification or a
      spurious wake-up.  The runs of the model thus include the runs of
      the program, and what holds in every run of the model holds in every
      run of the program.  That a worker goes on is only stated of a
      worker the program has notified ([Server::stop] notifies all of
      them, [add_task] one of them, which is the worker when there is
      only one thread) or that has just been started.

      A call of [Server::start] that has to wait for the thread it
      replaces reports that it waits, and is resumed when [start] is
      scheduled again: the model knows one caller of [start] at a time, as
      the program has, which calls it from [main].
    - [src/matrix_vector.cpp]: the serial and the row-partitioned
      matrix-vector product, over any type of scalars with a zero, an
      addition and a multiplication, with the [int] and [size_t] arithmetic
      of the loop counters and bounds written out.

    The definitions come first, the proofs after them. *)

From Stdlib Require Import ZArith Lia String.
From stdpp Require Import gmap list.

#[local] Set Warnings "-clear-no-such-hyp".

Local Open Scope Z_scope.

(** ** Machine integers *)

Definition INT_MAX : Z := 2147483647.
Definition INT_MIN : Z := -2147483648.

(** Conversion of an integer to [int]: two's complement wrap-around. *)
Definition to_int (z : Z) : Z := (z + 2147483648) mod 4294967296 - 2147483648.

(** Conversion of an integer to [size_t] (64 bits). *)
Definition to_size_t (z : Z) : Z := z mod 18446744073709551616.

Definition in_int (z : Z) : Prop := INT_MIN <= z <= INT_MAX.

(** ** Values held by [std::any], exceptions *)

Inductive ctype := Cint | Clong | Cbool.

Inductive value :=
| Vint (z : Z)
| Vlong (z : Z)
| Vbool (b : bool).

Definition type_of (v : value) : ctype :=
  match v with
  | Vint _ => Cint
  | Vlong _ => Clong
  | Vbool _ => Cbool
  end.

#[global] Instance ctype_eq_dec : EqDecision ctype.
Proof. solve_decision. Defined.

#[global] Instance value_eq_dec : EqDecision value.
Proof. solve_decision. Defined.

(** [std::any]: empty, or a value together with its dynamic type. *)
Definition any := option value.

Inductive exn :=
| runtime_error (what : string)
| bad_any_cast
| user_exn (code : Z).

(** What a call of a C++ function does: return a value, throw, or not
    return yet (the caller is blocked on a condition variable). *)
Inductive outcome (A : Type) :=
| Ok (a : A)
| Throw (e : exn)
| Blocks.
Arguments Ok {A} a.
Arguments Throw {A} e.
Arguments Blocks {A}.

(** [std::any_cast<T>(a)]: the held value when its dynamic type is [T],
    [std::bad_any_cast] otherwise (also for an empty [any]). *)
Definition any_cast (T : ctype) (a : any) : outcome value :=
  match a with
  | Some v => if decide (type_of v = T) then Ok v else Throw bad_any_cast
  | None => Throw bad_any_cast
  end.

(** ** [TaskWrapper] *)

(** The result of applying a callable to its arguments. *)
Inductive call_result :=
| Returned (v : value)
| Raised (e : exn).

(** [TaskWrapper<F, Args...>] behind [TaskWrapperBase]: the argument tuple
    type is hidden in the record (type erasure). *)
Record TaskWrapper := mkTaskWrapper {
  Args : Type;
  func : Args -> call_result;
  args : Args;
  result : any;
  ready : bool
}.

(** The constructor: callable and arguments are stored, nothing is run. *)
Definition new_task {A : Type} (f : A -> call_result) (a : A) : TaskWrapper :=
  mkTaskWrapper A f a None false.

(** [execute()]: [std::apply(func, args)]; when it returns, the value is
    stored and [ready] is set.  An exception leaves [execute] before the
    result slot is touched. *)
Definition execute (t : TaskWrapper) : exn + TaskWrapper :=
  match func t (args t) with
  | Returned v => inr (mkTaskWrapper (Args t) (func t) (args t) (Some v) true)
  | Raised e => inl e
  end.

(** [get_result()]: waits until [ready], then returns the stored [any]. *)
Definition get_result (t : TaskWrapper) : outcome any :=
  if ready t then Ok (result t) else Blocks.

Definition is_ready (t : TaskWrapper) : bool := ready t.

(** ** Threads and the global state *)

(** Where a worker thread is in [server_thread]: at the head of the loop
    (which includes waiting on [cond_var]); past the wait and the test of
    the stop token, owning the lock [mut]; between [tasks.pop()] and
    [execute()], with the popped id in its local [task_id] and the lock
    released; or past the loop. *)
Inductive wstate :=
| AtLoopHead
| Woken
| Holding (task_id : Z)
| Exited.

(** A [std::jthread] running [server_thread]: its stop state and the
    position of the thread. *)
Record jthread := mkThread {
  stop_requested : bool;
  pc : wstate
}.

Record State := mkState {
  tasks : list Z;                      (* std::queue<int> tasks *)
  results : gmap Z TaskWrapper;        (* std::unordered_map results *)
  mut : bool;                          (* std::mutex mut: owned by a worker *)
  nextid : Z;                          (* std::atomic<int> nextid *)
  threads : list jthread;              (* every thread spawned so far *)
  server_t : option nat;               (* Server::server_t, None when not joinable *)
  joining : option nat;                (* the thread a call of start() waits for in join() *)
  terminated : bool                    (* std::terminate was called *)
}.

Definition init : State := mkState [] ∅ false 0 [] None None false.

Definition set_tasks (q : list Z) (s : State) : State :=
  mkState q (results s) (mut s) (nextid s) (threads s) (server_t s) (joining s)
    (terminated s).
Definition set_results (r : gmap Z TaskWrapper) (s : State) : State :=
  mkState (tasks s) r (mut s) (nextid s) (threads s) (server_t s) (joining s)
    (terminated s).
Definition set_mut (b : bool) (s : State) : State :=
  mkState (tasks s) (results s) b (nextid s) (threads s) (server_t s) (joining s)
    (terminated s).
Definition set_nextid (n : Z) (s : State) : State :=
  mkState (tasks s) (results s) (mut s) n (threads s) (server_t s) (joining s)
    (terminated s).
Definition set_threads (ts : list jthread) (s : State) : State :=
  mkState (tasks s) (results s) (mut s) (nextid s) ts (server_t s) (joining s)
    (terminated s).
Definition set_server_t (o : option nat) (s : State) : State :=
  mkState (tasks s) (results s) (mut s) (nextid s) (threads s) o (joining s)
    (terminated s).
Definition set_joining (o : option nat) (s : State) : State :=
  mkState (tasks s) (results s) (mut s) (nextid s) (threads s) (server_t s) o
    (terminated s).
Definition set_terminated (b : bool) (s : State) : State :=
  mkState (tasks s) (results s) (mut s) (nextid s) (threads s) (server_t s) (joining s) b.

Definition set_pc (w : nat) (p : wstate) (s : State) : State :=
  set_threads (alter (fun t => mkThread (stop_requested t) p) w (threads s)) s.

(** [request_stop()] on thread [w]. *)
Definition request_stop (w : nat) (s : State) : State :=
  set_threads (alter (fun t => mkThread true (pc t)) w (threads s)) s.

(** ** The functions of the program *)

(** [add_task(func, args...)]: [nextid++], then under the lock the new
    wrapper is stored under the id (replacing what was there) and the id is
    pushed.  This is the call once it can have the lock; while a worker
    owns the lock the call waits (see [exec]). *)
Definition add_task {A : Type} (f : A -> call_result) (a : A) (s : State)
  : Z * State :=
  let task_id := nextid s in
  let s1 := set_nextid (to_int (nextid s + 1)) s in
  let s2 := set_results (<[task_id := new_task f a]> (results s1)) s1 in
  let s3 := set_tasks (tasks s2 ++ [task_id]) s2 in
  (task_id, s3).

Definition not_found : exn := runtime_error "Task ID not found".

(** [request_result<T>(task_id)]: the lookup, the wait for the result
    and the cast are made without the lock; only the removal of the entry
    needs it, and waits while a worker owns it. *)
Definition request_result (T : ctype) (task_id : Z) (s : State)
  : outcome value * State :=
  match results s !! task_id with
  | None => (Throw not_found, s)
  | Some task =>
      match get_result task with
      | Blocks => (Blocks, s)
      | Throw e => (Throw e, s)
      | Ok a =>
          match any_cast T a with
          | Ok res =>
              if mut s then (Blocks, s)
              else (Ok res, set_results (delete task_id (results s)) s)
          | Throw e => (Throw e, s)
          | Blocks => (Blocks, s)
          end
      end
  end.

(** Thread [w] has left [server_thread]: what [join()] waits for (a
    thread that does not exist keeps nobody waiting). *)
Definition finished (w : nat) (s : State) : bool :=
  match threads s !! w with
  | Some th => match pc th with Exited => true | _ => false end
  | None => true
  end.
Arguments finished : simpl never.

(** [Server::start()]: a new thread is spawned by the [std::jthread]
    constructor, then move-assigned to [server_t]; the move assignment
    requests stop on the thread [server_t] had, if any, and joins it: the
    caller waits until that thread has left [server_thread], and no
    [notify] is sent to it.  [joining] records the thread waited for, and
    a call that has been waiting is resumed by being scheduled again.
    The function returns nothing and throws nothing.

    The new thread is entered into [server_t] at once, as an
    implementation does that swaps [server_t] with a temporary and lets
    the temporary's destructor stop and join the old thread; the standard
    words the assignment as made when [join()] has returned.  Only
    another call of [start()] or [stop()] on the same [Server] made
    during the wait could see the difference, and the program makes none
    (it would be a data race on [server_t]). *)
Definition start (s : State) : outcome unit * State :=
  match joining s with
  | Some old =>
      if finished old s then (Ok tt, set_joining None s) else (Blocks, s)
  | None =>
      let w := length (threads s) in
      let s1 := set_threads (threads s ++ [mkThread false AtLoopHead]) s in
      match server_t s with
      | Some old =>
          let s2 := set_server_t (Some w) (request_stop old s1) in
          if finished old s2 then (Ok tt, s2) else (Blocks, set_joining (Some old) s2)
      | None => (Ok tt, set_server_t (Some w) s1)
      end
  end.

(** [Server::stop()]: the stop request is made without taking the lock. *)
Definition stop (s : State) : outcome unit * State :=
  match server_t s with
  | Some w => (Ok tt, request_stop w s)
  | None => (Ok tt, s)
  end.

(** What one step of a worker thread did. *)
Inductive wobs :=
| Idle                      (* still in cond_var.wait, or waiting for mut *)
| Woke                      (* the wait is over, no stop requested *)
| Dequeued (task_id : Z)    (* tasks.front(); tasks.pop(); lock.unlock() *)
| Executed (task_id : Z)    (* execute() returned *)
| Missing (task_id : Z)     (* results.find found nothing *)
| Aborted (task_id : Z) (e : exn)  (* execute() threw: std::terminate *)
| LockError                 (* lock.lock() on an owned lock threw: std::terminate *)
| LoopExit                  (* stop requested: the loop is left *)
| NoThread.                 (* no such thread, or it has returned *)

(** One step of [server_thread] in thread [w].

    At the head of the loop the thread leaves when stop has been
    requested; otherwise it stays in the wait as long as the queue is
    empty, and once it is not (and the lock is free) it owns the lock and
    has passed the test of line 81.  From there it pops the front id and
    releases the lock; were the queue empty, it would come back to
    [lock.lock()] with the lock still owned.  With an id in hand it looks
    the task up and executes it. *)
Definition server_thread (w : nat) (s : State) : wobs * State :=
  match threads s !! w with
  | None => (NoThread, s)
  | Some th =>
      match pc th with
      | Exited => (NoThread, s)
      | AtLoopHead =>
          if stop_requested th then (LoopExit, set_pc w Exited s)
          else match tasks s with
               | [] => (Idle, s)
               | _ :: _ =>
                   if mut s then (Idle, s)
                   else (Woke, set_pc w Woken (set_mut true s))
               end
      | Woken =>
          match tasks s with
          | task_id :: q =>
              (Dequeued task_id, set_pc w (Holding task_id) (set_mut false (set_tasks q s)))
          | [] =>
              if stop_requested th then (LoopExit, set_pc w Exited (set_mut false s))
              else (LockError, set_terminated true s)
          end
      | Holding task_id =>
          match results s !! task_id with
          | None => (Missing task_id, set_pc w AtLoopHead s)
          | Some t =>
              match execute t with
              | inr t' => (Executed task_id,
                           set_pc w AtLoopHead (set_results (<[task_id := t']> (results s)) s))
              | inl e => (Aborted task_id e, set_terminated true s)
              end
          end
      end
  end.

(** ** Schedules *)

(** The operations a run is made of: a call of [add_task], of
    [request_result<T>], of [Server::start] or [Server::stop] by a client
    thread, or a step of worker thread [w]. *)
Inductive op :=
| OpAddTask {A : Type} (f : A -> call_result) (a : A)
| OpRequestResult (T : ctype) (task_id : Z)
| OpWorker (w : nat)
| OpStart
| OpStop.

(** What an operation did, as seen from outside. *)
Inductive event :=
| EvSubmitted (task_id : Z)                           (* add_task returned task_id *)
| EvLockWait                                          (* add_task waits for the lock *)
| EvRequest (T : ctype) (task_id : Z) (r : outcome value)
| EvWorker (w : nat) (o : wobs)
| EvStart (r : outcome unit)
| EvStop (r : outcome unit)
| EvDead.                                             (* the process is gone *)

(** One operation.  After [std::terminate] nothing runs any more. *)
Definition exec (o : op) (s : State) : event * State :=
  if terminated s then (EvDead, s)
  else match o with
       | OpAddTask f a =>
           if mut s then (EvLockWait, s)
           else let '(id, s') := add_task f a s in (EvSubmitted id, s')
       | OpRequestResult T id => let '(r, s') := request_result T id s in (EvRequest T id r, s')
       | OpWorker w => let '(o, s') := server_thread w s in (EvWorker w o, s')
       | OpStart => let '(r, s') := start s in (EvStart r, s')
       | OpStop => let '(r, s') := stop s in (EvStop r, s')
       end.

Fixpoint run (sch : list op) (s : State) : list event * State :=
  match sch with
  | [] => ([], s)
  | o :: sch' =>
      let '(e, s1) := exec o s in
      let '(tr, s2) := run sch' s1 in
      (e :: tr, s2)
  end.

Definition trace (sch : list op) (s : State) : list event := fst (run sch s).
Definition final (sch : list op) (s : State) : State := snd (run sch s).

(** Ids returned by [add_task], in order. *)
Definition submitted (tr : list event) : list Z :=
  omap (fun e => match e with EvSubmitted id => Some id | _ => None end) tr.

(** Ids popped from the queue, in order. *)
Definition dequeued (tr : list event) : list Z :=
  omap (fun e => match e with EvWorker _ (Dequeued id) => Some id | _ => None end) tr.

(** Ids a worker has looked up after popping them, finding nothing to
    execute or executing the task to completion, in order. *)
Definition handled (tr : list event) : list Z :=
  omap (fun e => match e with
                 | EvWorker _ (Executed id) | EvWorker _ (Missing id) => Some id
                 | _ => None
                 end) tr.

(** Ids whose [execute()] ran to completion, in order. *)
Definition executed (tr : list event) : list Z :=
  omap (fun e => match e with EvWorker _ (Executed id) => Some id | _ => None end) tr.

(** Ids popped by a worker that has not looked them up yet. *)
Definition held (s : State) : list Z :=
  omap (fun th => match pc th with Holding id => Some id | _ => None end) (threads s).

(** Thread [w] is at position [p]. *)
Definition at_pc (s : State) (w : nat) (p : wstate) : Prop :=
  exists th, threads s !! w = Some th /\ pc th = p.

(** Worker [w] has popped [id] and not looked it up yet. *)
Abbreviation holds s w id := (at_pc s w (Holding id)).

(** Worker [w] is past its wait and its test of the stop token, and owns
    the lock. *)
Abbreviation woken s w := (at_pc s w Woken).

(** The lock is owned exactly when a worker is between its wake-up and its
    pop; there is at most one such worker, and the queue is not empty
    then. *)
Definition lock_ok (s : State) : Prop :=
  (mut s = true <-> exists w, woken s w) /\
  (forall w w', woken s w -> woken s w' -> w = w') /\
  (forall w, woken s w -> tasks s <> []).

(** Every spawned thread has been asked to stop. *)
Definition all_stopping (s : State) : Prop :=
  forall w th, threads s !! w = Some th -> stop_requested th = true.

(** [id] is one of the first [n] ids and its task, in the registry, has
    not been executed. *)
Definition pending (n : Z) (s : State) (id : Z) : Prop :=
  0 <= id < n /\ exists t, results s !! id = Some t /\ ready t = false.

(** The ids that are queued or held are distinct, and pending. *)
Definition queue_ok (n : Z) (s : State) : Prop :=
  (forall id, id ∈ tasks s -> pending n s id) /\
  (forall w id, holds s w id -> pending n s id) /\
  NoDup (tasks s) /\
  (forall w id, holds s w id -> id ∉ tasks s) /\
  (forall w w' id, holds s w id -> holds s w' id -> w = w').

(** The wrapper of a task submitted as [add_task(f, a)]: as constructed,
    or executed, with the value [f a] in its result slot. *)
Definition slot_of {A : Type} (f : A -> call_result) (a : A) (t : TaskWrapper) : Prop :=
  t = new_task f a \/
  exists v, f a = Returned v /\ t = mkTaskWrapper A f a (Some v) true.

(** A result slot that is ready holds the value its callable returns. *)
Definition slots_ok (s : State) : Prop :=
  forall id t, results s !! id = Some t -> ready t = true ->
               exists v, result t = Some v /\ func t (args t) = Returned v.

(** The schedule contains no call of [Server::start]. *)
Definition no_start (sch : list op) : bool :=
  forallb (fun o => match o with OpStart => false | _ => true end) sch.

(** What an event does to the registry entry of [id]: [add_task] returning
    [id] creates it, [request_result] returning the result of [id] removes
    it, anything else leaves it as it is. *)
Definition touch (e : event) (id : Z) : option bool :=
  match e with
  | EvSubmitted id' => if decide (id' = id) then Some true else None
  | EvRequest _ id' (Ok _) => if decide (id' = id) then Some false else None
  | _ => None
  end.

(** Whether the last thing that happened to [id] in the trace is that
    [add_task] issued it (and not that [request_result] returned it). *)
Definition registered (tr : list event) (id : Z) : bool :=
  foldl (fun b e => default b (touch e id)) false tr.

(** [id] was retrieved by a [request_result] in the trace and has not been
    issued again since. *)
Definition retrieved (tr : list event) (id : Z) : Prop :=
  exists tr1 T v tr2,
    tr = tr1 ++ EvRequest T id (Ok v) :: tr2 /\ id ∉ submitted tr2.

(** ** The example functions of [main] *)

(** [f_smthlse<int>]: [a * b + c] in [int] (wrapping; exact whenever the
    operations do not overflow). *)
Definition f_smthlse (abc : Z * Z * Z) : call_result :=
  let '(a, b, c) := abc in Returned (Vint (to_int (to_int (a * b) + c))).

(** [f_sq<int>]. *)
Definition f_sq (x : Z) : call_result := Returned (Vint (to_int (x * x))).

(** A callable that throws. *)
Definition f_throw (code : Z) : call_result := Raised (user_exn code).

(** In every state of a run from [init], [server_t] names a spawned thread
    whenever there is one, and every other thread has been asked to stop. *)
Definition threads_ok (s : State) : Prop :=
  match server_t s with
  | Some w => (w < length (threads s))%nat
  | None => threads s = []
  end /\
  forall w th, threads s !! w = Some th -> server_t s <> Some w ->
               stop_requested th = true.

(** The thread a waiting [start()] is joining is a spawned thread other
    than the server's, which is the newest thread then; every other
    thread that is not the server's has left [server_thread]. *)
Definition join_ok (s : State) : Prop :=
  (forall old, joining s = Some old ->
     (old < length (threads s))%nat /\ server_t s <> Some old /\
     server_t s = Some (pred (length (threads s)))) /\
  (forall w th, threads s !! w = Some th -> server_t s <> Some w ->
                joining s <> Some w -> pc th = Exited).

(** ** Notions used for the worker's progress *)

(** The id a thread holds, if it is between its pop and its lookup. *)
Definition held_id (th : jthread) : option Z :=
  match pc th with Holding id => Some id | _ => None end.

(** The callable of the task registered under [id] returns. *)
Definition runnable (s : State) (id : Z) : Prop :=
  exists t v, results s !! id = Some t /\ func t (args t) = Returned v.

(** The task registered under [id] has been executed: its slot is ready
    and holds what its callable returns. *)
Definition completed (s : State) (id : Z) : Prop :=
  exists t v, results s !! id = Some t /\ ready t = true /\
              result t = Some v /\ func t (args t) = Returned v.

(** What worker [w] does for the ids of [q], one after the other: for
    each it gets past the wait, pops it and executes its task. *)
Definition serve_events (w : nat) (q : list Z) : list event :=
  q ≫= (fun id => [EvWorker w Woke; EvWorker w (Dequeued id); EvWorker w (Executed id)]).

(** ** States and schedules used as examples *)

(** A state in which task 0, [f_sq<int>(7)], has been executed, and task 1
    is still queued. *)
Definition sch_ready : list op :=
  [OpStart; OpAddTask f_sq 7; OpAddTask f_sq 8;
   OpWorker 0%nat; OpWorker 0%nat; OpWorker 0%nat].
Definition s_ready : State := final sch_ready init.

Definition sch_raise : list op :=
  [OpStart; OpAddTask f_throw 3; OpAddTask f_sq 3;
   OpWorker 0%nat; OpWorker 0%nat; OpWorker 0%nat; OpWorker 0%nat;
   OpRequestResult Cint 0; OpRequestResult Cint 1].

Definition sch_holding_raise : list op :=
  [OpStart; OpAddTask f_throw 3; OpAddTask f_sq 3; OpWorker 0%nat; OpWorker 0%nat].
Definition s_holding_raise : State := final sch_holding_raise init.

Definition sch_three : list op :=
  [OpAddTask f_sq 1; OpStart; OpAddTask f_sq 2; OpAddTask f_sq 3].

Definition sch_before_stop : list op :=
  [OpStart; OpAddTask f_sq 3; OpAddTask f_sq 4; OpAddTask f_sq 5; OpWorker 0%nat].
Definition sch_after_stop : list op :=
  [OpWorker 0%nat; OpWorker 0%nat; OpAddTask f_sq 6; OpWorker 0%nat;
   OpRequestResult Cint 1].

Definition sch_fifo : list op :=
  [OpStart; OpAddTask f_sq 1; OpAddTask f_sq 2;
   OpWorker 0%nat; OpWorker 0%nat; OpWorker 0%nat;
   OpAddTask f_sq 3; OpRequestResult Cint 0;
   OpWorker 0%nat; OpWorker 0%nat; OpWorker 0%nat; OpWorker 0%nat; OpWorker 0%nat;
   OpAddTask f_sq 4].

(** * Matrix-vector product ([src/matrix_vector.cpp]) *)

(** What running a piece of code gives: a final state, undefined
    behaviour (signed overflow, access outside an array), or no answer
    within the fuel. *)
Inductive run_result (S : Type) :=
| Done (s : S)
| Undefined
| OutOfFuel.
Arguments Done {S} s.
Arguments Undefined {S}.
Arguments OutOfFuel {S}.

(** Conversion of an integer to [std::ptrdiff_t] (64 bits, signed), the
    index type of [shared_ptr<T[]>::operator[]]. *)
Definition to_ptrdiff (z : Z) : Z :=
  (z + 9223372036854775808) mod 18446744073709551616 - 9223372036854775808.

(** An [int] operation: its result when representable, undefined
    otherwise. *)
Definition int_result (z : Z) : option Z :=
  if decide (INT_MIN <= z <= INT_MAX) then Some z else None.

(** [for (int i = i0; cond(i); i++) body]: the body may fail, and [i++]
    overflows at [INT_MAX]. *)
Fixpoint for_int {S : Type} (fuel : nat) (cond : Z -> bool)
    (body : Z -> S -> run_result S) (i : Z) (s : S) : run_result S :=
  match fuel with
  | O => if cond i then OutOfFuel else Done s
  | Datatypes.S fuel' =>
      if cond i then
        match body i s with
        | Done s' =>
            if decide (i = INT_MAX) then Undefined
            else for_int fuel' cond body (i + 1) s'
        | r => r
        end
      else Done s
  end.

(** Running [body] for the indices of a list, in order. *)
Fixpoint seq_run {S : Type} (body : Z -> S -> run_result S) (l : list Z) (s : S)
  : run_result S :=
  match l with
  | [] => Done s
  | i :: l' =>
      match body i s with
      | Done s' => seq_run body l' s'
      | r => r
      end
  end.

Section MatVecDefs.
Context {F : Type} (zero : F) (add mul : F -> F -> F).

(** [p[k]] read and written, [p] an array and [k] a [ptrdiff_t]. *)
Definition load (p : list F) (k : Z) : option F :=
  if decide (0 <= k) then p !! Z.to_nat k else None.

Definition store (p : list F) (k : Z) (x : F) : option (list F) :=
  if decide (0 <= k < Z.of_nat (length p)) then Some (<[Z.to_nat k := x]> p) else None.

(** [c[i] += a[i * n + j] * b[j]], the index [i * n + j] computed in
    [size_t]. *)
Definition accumulate (a b : list F) (n : Z) (i j : Z) (c : list F)
  : run_result (list F) :=
  match load c (to_ptrdiff i),
        load a (to_ptrdiff (to_size_t (to_size_t (to_size_t i * n) + to_size_t j))),
        load b (to_ptrdiff j) with
  | Some ci, Some aij, Some bj =>
      match store c (to_ptrdiff i) (add ci (mul aij bj)) with
      | Some c' => Done c'
      | None => Undefined
      end
  | _, _, _ => Undefined
  end.

(** [matrix_vector_product(a, b, c, m, n)]: the new contents of [c].  The
    loops get as much fuel as they can make rounds. *)
Definition matrix_vector_product (a b c : list F) (m n : Z) : run_result (list F) :=
  for_int (Z.to_nat m) (fun i => to_size_t i <? m)
    (fun i c =>
       match store c (to_ptrdiff i) zero with
       | Some c0 =>
           for_int (Z.to_nat n) (fun j => to_size_t j <? n)
             (fun j c => accumulate a b n i j c) 0 c0
       | None => Undefined
       end)
    0 c.

(** The bounds [lb] and [ub] of [matrix_vector_product_omp]. *)
Definition omp_bounds (m : Z) (nthreads threadid : Z) : option (Z * Z) :=
  if decide (to_size_t nthreads = 0) then None
  else
    let items_per_thread := to_int (m / to_size_t nthreads) in
    lb ← int_result (threadid * items_per_thread);
    last ← int_result (nthreads - 1);
    if decide (threadid = last) then
      Some (lb, to_int (to_size_t (m - 1)))
    else
      s ← int_result (lb + items_per_thread);
      e ← int_result (s - 1);
      Some (lb, to_int (to_size_t e)).

(** [matrix_vector_product_omp(a, b, c, m, n, nthreads, threadid)]. *)
Definition matrix_vector_product_omp (a b c : list F) (m n : Z)
    (nthreads threadid : Z) : run_result (list F) :=
  match omp_bounds m nthreads threadid with
  | None => Undefined
  | Some (lb, ub) =>
      for_int (Z.to_nat (ub + 1 - lb)) (fun i => i <=? ub)
        (fun i c =>
           match store c (to_ptrdiff i) zero with
           | Some c0 =>
               for_int (Z.to_nat n) (fun j => to_size_t j <? n)
                 (fun j c => accumulate a b n i j c) 0 c0
           | None => Undefined
           end)
        lb c
  end.

(** The [k] calls made by the threads of [run_parallel], taken in the
    order of their thread ids. *)
Definition run_parallel (a b c : list F) (m n : Z) (k : Z) : run_result (list F) :=
  seq_run (fun threadid c => matrix_vector_product_omp a b c m n k threadid)
    (seqZ 0 k) c.
End MatVecDefs.

(** Row [i] belongs to the range of thread [threadid]. *)
Definition in_range (m k threadid i : Z) : Prop :=
  exists lb ub, omp_bounds m k threadid = Some (lb, ub) /\ lb <= i <= ub.

(** The rows of thread [t], in the order in which its loop visits them. *)
Definition rows_of (m k t : Z) : list Z :=
  match omp_bounds m k t with
  | Some (lb, ub) => seqZ lb (ub + 1 - lb)
  | None => []
  end.

Section MatVecMore.
Context {F : Type} (zero : F) (add mul : F -> F -> F).

(** The body of the loop over the rows, the same statement in both
    functions. *)
Definition row_body (a b : list F) (n : Z) (i : Z) (c : list F)
  : run_result (list F) :=
  match store c (to_ptrdiff i) zero with
  | Some c0 =>
      for_int (Z.to_nat n) (fun j => to_size_t j <? n)
        (fun j c => accumulate add mul a b n i j c) 0 c0
  | None => Undefined
  end.

(** The value the loop over [j] leaves in [c[i]]. *)
Definition dot (a b : list F) (n i : Z) : F :=
  foldl (fun acc j => add acc (mul (default zero (a !! Z.to_nat (i * n + j)))
                                   (default zero (b !! Z.to_nat j))))
    zero (seqZ 0 n).

(** The calls of the threads, one after the other in a given order of
    the thread ids. *)
Definition run_threads (a b c : list F) (m n k : Z) (order : list Z)
  : run_result (list F) :=
  seq_run (fun threadid c => matrix_vector_product_omp zero add mul a b c m n k threadid)
    order c.

(** [c] after the row updates of the rows in [l], in that order. *)
Definition set_rows (a b : list F) (n : Z) (c : list F) (l : list Z) : list F :=
  foldl (fun c i => <[Z.to_nat i := dot a b n i]> c) c l.
End MatVecMore.

(** A 3 x 2 matrix, a vector and an output vector. *)
Definition a32 : list Z := [1; 2; 3; 4; 5; 6].
Definition b2 : list Z := [10; 1].
Definition c3 : list Z := [0; 0; 0].

(** * The task server: proofs *)

(** ** Basic facts *)

Lemma run_app sch1 sch2 s :
  run (sch1 ++ sch2) s =
  let '(tr1, s1) := run sch1 s in
  let '(tr2, s2) := run sch2 s1 in
  (tr1 ++ tr2, s2).
Proof.
  revert s. induction sch1 as [|o sch1 IH]; intros s; simpl.
  - by destruct (run sch2 s).
  - destruct (exec o s) as [e s1]. rewrite IH.
    destruct (run sch1 s1) as [tr1 s1']. by destruct (run sch2 s1').
Qed.

Lemma run_snoc sch o s :
  run (sch ++ [o]) s =
  (trace sch s ++ [fst (exec o (final sch s))], snd (exec o (final sch s))).
Proof.
  rewrite run_app. unfold trace, final.
  destruct (run sch s) as [tr1 s1]; simpl.
  by destruct (exec o s1).
Qed.

Lemma trace_snoc sch o s :
  trace (sch ++ [o]) s = trace sch s ++ [fst (exec o (final sch s))].
Proof. unfold trace at 1. by rewrite run_snoc. Qed.

Lemma final_snoc sch o s :
  final (sch ++ [o]) s = snd (exec o (final sch s)).
Proof. unfold final at 1. by rewrite run_snoc. Qed.

Lemma final_cons o sch s : final (o :: sch) s = final sch (snd (exec o s)).
Proof.
  unfold final. simpl. destruct (exec o s) as [e s1]. simpl. by destruct (run sch s1).
Qed.

Lemma run_cons_app sch1 sch2 s tr1 s1 :
  run sch1 s = (tr1, s1) ->
  trace (sch1 ++ sch2) s = tr1 ++ trace sch2 s1 /\
  final (sch1 ++ sch2) s = final sch2 s1.
Proof.
  intros E. unfold trace, final. rewrite run_app, E.
  by destruct (run sch2 s1).
Qed.

Lemma exec_terminated o s : terminated s = true -> exec o s = (EvDead, s).
Proof. intros H. unfold exec. by rewrite H. Qed.

Lemma run_terminated sch s :
  terminated s = true -> run sch s = (replicate (length sch) EvDead, s).
Proof.
  intros H. induction sch as [|o sch IH]; simpl; [done|].
  rewrite exec_terminated by done. by rewrite IH.
Qed.

(** Induction over the runs from a state [s0]: a property of the trace and
    the state reached that holds at the start and is kept by every
    operation holds after every schedule. *)
Lemma run_invariant (s0 : State) (P : list event -> State -> Prop) :
  P [] s0 ->
  (forall tr s o, P tr s -> P (tr ++ [fst (exec o s)]) (snd (exec o s))) ->
  forall sch, P (trace sch s0) (final sch s0).
Proof.
  intros H0 Hstep sch. induction sch as [|o sch IH] using rev_ind; [done|].
  rewrite trace_snoc, final_snoc. by apply Hstep.
Qed.

(** The same for a property of the state alone. *)
Lemma final_invariant (s0 : State) (P : State -> Prop) :
  P s0 -> (forall s o, P s -> P (snd (exec o s))) ->
  forall sch, P (final sch s0).
Proof.
  intros H0 Hstep sch.
  apply (run_invariant s0 (fun _ s => P s)); [done|]. intros _ s o. apply Hstep.
Qed.

(** Case analysis on what [exec o s] does. *)
Ltac exec_cases o s :=
  unfold exec; destruct (terminated s) eqn:?;
  [ | destruct o; unfold add_task, request_result, get_result, any_cast,
        server_thread, start, stop, execute;
      simpl; repeat case_match; simplify_eq/= ].


Lemma request_result_ok T id s v s' :
  request_result T id s = (Ok v, s') ->
  s' = set_results (delete id (results s)) s /\
  exists t, results s !! id = Some t /\ ready t = true /\
            result t = Some v /\ type_of v = T.
Proof.
  unfold request_result, get_result, any_cast.
  destruct (results s !! id) as [t|]; [|done].
  destruct (ready t) eqn:Hr; [|done].
  destruct (result t) as [u|] eqn:Hu; [|done].
  case_decide; [|done]. destruct (mut s); [done|].
  intros [= -> <-]. eauto 10.
Qed.

Lemma to_int_id z : in_int z -> to_int z = z.
Proof.
  unfold in_int, INT_MIN, INT_MAX, to_int. intros H.
  rewrite Z.mod_small; lia.
Qed.

Lemma to_int_range z : in_int (to_int z).
Proof.
  unfold in_int, INT_MIN, INT_MAX, to_int.
  pose proof (Z.mod_pos_bound (z + 2147483648) 4294967296). lia.
Qed.

Lemma to_int_succ z : to_int (to_int z + 1) = to_int (z + 1).
Proof.
  unfold to_int.
  replace ((z + 2147483648) mod 4294967296 - 2147483648 + 1 + 2147483648)
    with ((z + 2147483648) mod 4294967296 + 1) by lia.
  rewrite Zplus_mod_idemp_l. f_equal. f_equal. lia.
Qed.

Lemma to_int_eq_iff a b : to_int a = to_int b <-> (a - b) mod 4294967296 = 0.
Proof.
  unfold to_int. split; intros H.
  - assert (E : (a + 2147483648) mod 4294967296 = (b + 2147483648) mod 4294967296) by lia.
    replace (a - b) with ((a + 2147483648) - (b + 2147483648)) by lia.
    rewrite Zminus_mod, E, Z.sub_diag. done.
  - f_equal.
    replace (a + 2147483648) with ((a - b) + (b + 2147483648)) by lia.
    rewrite Zplus_mod, H, Z.add_0_l, Zmod_mod. done.
Qed.

(** ** Retrieval: type check and failures *)

(** C6: when the stored result's dynamic type differs from the requested
    [T], [request_result<T>] throws [std::bad_any_cast] (the type-mismatch
    condition) and returns no value; when the types agree it returns the
    stored value (as soon as it can have the lock to remove the entry). *)
Theorem request_result_type_check (T : ctype) (task_id : Z) (s : State)
    (task : TaskWrapper) (v : value) :
  results s !! task_id = Some task ->
  ready task = true ->
  result task = Some v ->
  (type_of v <> T -> request_result T task_id s = (Throw bad_any_cast, s)) /\
  (type_of v = T ->
   request_result T task_id s =
   if mut s then (Blocks, s)
   else (Ok v, set_results (delete task_id (results s)) s)).
Proof.
  intros Hl Hr Hv. unfold request_result, get_result, any_cast.
  rewrite Hl, Hr, Hv. split; intros H; by case_decide.
Qed.

Lemma request_result_type_check_witness :
  request_result Cbool 0 s_ready = (Throw bad_any_cast, s_ready) /\
  fst (request_result Cint 0 s_ready) = Ok (Vint 49).
Proof.
  destruct (request_result_type_check Cbool 0 s_ready
              (mkTaskWrapper Z f_sq 7 (Some (Vint 49)) true) (Vint 49))
    as [Hne _]; [reflexivity..|].
  destruct (request_result_type_check Cint 0 s_ready
              (mkTaskWrapper Z f_sq 7 (Some (Vint 49)) true) (Vint 49))
    as [_ Heq]; [reflexivity..|].
  split.
  - apply Hne. discriminate.
  - rewrite Heq by reflexivity. reflexivity.
Defined.

(** C4, as the claim states it, fails: a retrieval that fails on a type
    mismatch leaves the entry in the registry, whereas the successful
    retrieval of the same task removes it. *)
Lemma failed_request_keeps_entry_example :
  fst (request_result Cbool 0 s_ready) = Throw bad_any_cast /\
  is_Some (results (snd (request_result Cbool 0 s_ready)) !! 0) /\
  fst (request_result Cint 0 s_ready) = Ok (Vint 49) /\
  results (snd (request_result Cint 0 s_ready)) !! 0 = None.
Proof. repeat split; try reflexivity. eexists; reflexivity. Qed.

(** C4, amended: a [request_result] that throws changes nothing: queue and
    registry are as before the call, and in particular the entry of a
    present task is not removed.  The only exceptions are the one for an
    absent id and [std::bad_any_cast] for a present, ready task. *)
Theorem request_result_throw_unchanged (T : ctype) (task_id : Z) (s : State) (e : exn) :
  fst (request_result T task_id s) = Throw e ->
  snd (request_result T task_id s) = s /\
  (e = not_found /\ results s !! task_id = None \/
   e = bad_any_cast /\
   exists task, results s !! task_id = Some task /\ ready task = true /\
                results (snd (request_result T task_id s)) !! task_id = Some task).
Proof.
  unfold request_result, get_result, any_cast.
  destruct (results s !! task_id) as [t|] eqn:Hl; simpl.
  - destruct (ready t) eqn:Hr; simpl; [|done].
    destruct (result t) as [u|]; [case_decide; [by destruct (mut s)|]|]; simpl;
      intros [= <-]; (split; [done|]); right; eauto.
  - intros [= <-]. auto.
Qed.

Lemma request_result_throw_unchanged_witness :
  snd (request_result Cbool 0 s_ready) = s_ready.
Proof.
  apply (request_result_throw_unchanged Cbool 0 s_ready bad_any_cast).
  reflexivity.
Defined.

(** ** Starting the server twice *)

(** C7, as the claim states it, fails: the second [start()] spawns a
    second worker thread, which takes the place of the first in
    [server_t], and reports no error: it waits for the first worker to
    leave [server_thread], and returns normally once it has. *)
Lemma start_twice_example :
  trace [OpStart; OpStart] init = [EvStart (Ok tt); EvStart Blocks] /\
  threads (final [OpStart; OpStart] init) =
    [mkThread true AtLoopHead; mkThread false AtLoopHead] /\
  server_t (final [OpStart; OpStart] init) = Some 1%nat /\
  trace [OpStart; OpStart; OpWorker 0%nat; OpStart] init =
    [EvStart (Ok tt); EvStart Blocks; EvWorker 0%nat LoopExit; EvStart (Ok tt)].
Proof. vm_compute. done. Qed.

Lemma lookup_set_pc w p s w' :
  threads (set_pc w p s) !! w' =
  if decide (w = w') then (fun t => mkThread (stop_requested t) p) <$> threads s !! w'
  else threads s !! w'.
Proof.
  unfold set_pc; simpl. case_decide as H.
  - subst. apply list_lookup_alter_eq.
  - by apply list_lookup_alter_ne.
Qed.

Lemma lookup_request_stop w s w' :
  threads (request_stop w s) !! w' =
  if decide (w = w') then (fun t => mkThread true (pc t)) <$> threads s !! w'
  else threads s !! w'.
Proof.
  unfold request_stop; simpl. case_decide as H.
  - subst. apply list_lookup_alter_eq.
  - by apply list_lookup_alter_ne.
Qed.

Lemma threads_ok_alter (f : jthread -> jthread) w s :
  (forall t, stop_requested t = true -> stop_requested (f t) = true) ->
  threads_ok s -> threads_ok (set_threads (alter f w (threads s)) s).
Proof.
  intros Hf [Hs Hall]. split; simpl.
  - destruct (server_t s); [by rewrite length_alter|].
    by rewrite Hs.
  - intros w' th Hl Hne. rewrite list_lookup_alter in Hl.
    case_decide; [|by eauto]. subst.
    destruct (threads s !! w') as [t|] eqn:Ht; simplify_eq/=.
    apply Hf. eauto.
Qed.

Lemma threads_ok_exec o s : threads_ok s -> threads_ok (snd (exec o s)).
Proof.
  intros Hok. pose proof Hok as [Hs Hall].
  exec_cases o s; try done;
    try (by apply (threads_ok_alter _ _ (set_tasks _ s)));
    try (by apply (threads_ok_alter _ _ (set_results _ s)));
    try (by apply threads_ok_alter).
  1-2: (* start, with a thread to replace *)
    split; simpl;
    [ rewrite length_alter, length_app; simpl; lia
    | intros w th Hl Hne; rewrite list_lookup_alter in Hl;
      case_decide as Hw;
      [ subst; rewrite lookup_app_l in Hl by done;
        destruct (threads s !! w); by simplify_eq/=
      | apply lookup_app_Some in Hl as [Hl|[Hge Hl]];
        [ apply (Hall w th Hl); congruence
        | apply list_lookup_singleton_Some in Hl as [Hz _];
          exfalso; apply Hne; f_equal; lia ] ] ].
  - (* start, the first *)
    split; simpl.
    + rewrite length_app; simpl. lia.
    + intros w th Hl Hne. rewrite Hs in Hl. simpl in Hl.
      apply list_lookup_singleton_Some in Hl as [-> _]. by rewrite Hs in Hne.
Qed.

Lemma threads_ok_final sch : threads_ok (final sch init).
Proof.
  apply final_invariant; [|intros s o; apply threads_ok_exec].
  split; [done|]. intros w th Hl. by destruct w.
Qed.

(** ** A callable that throws *)

(** C3, as the claim states it, fails: the exception of task 0 leaves
    [server_thread], the process is terminated, no error is stored in the
    result slot, task 1 is never executed and no retrieval returns. *)
Lemma raising_task_example :
  trace sch_raise init =
    [EvStart (Ok tt); EvSubmitted 0; EvSubmitted 1; EvWorker 0%nat Woke;
     EvWorker 0%nat (Dequeued 0); EvWorker 0%nat (Aborted 0 (user_exn 3));
     EvDead; EvDead; EvDead] /\
  terminated (final sch_raise init) = true /\
  tasks (final sch_raise init) = [1] /\
  (fun t => (ready t, result t)) <$> results (final sch_raise init) !! 0 = Some (false, None) /\
  (fun t => (ready t, result t)) <$> results (final sch_raise init) !! 1 = Some (false, None).
Proof. repeat split; vm_compute; reflexivity. Qed.

Lemma slots_ok_exec o s : slots_ok s -> slots_ok (snd (exec o s)).
Proof.
  intros Hok. exec_cases o s; try done; intros id' t'; simpl.
  - destruct (decide (nextid s = id')) as [->|Hne].
    + rewrite lookup_insert_eq. by intros [= <-].
    + rewrite lookup_insert_ne by done. apply Hok.
  - destruct (decide (task_id = id')) as [->|Hne].
    + by rewrite lookup_delete_eq.
    + rewrite lookup_delete_ne by done. apply Hok.
  - destruct (decide (task_id = id')) as [->|Hne].
    + rewrite lookup_insert_eq. intros [= <-] _. simpl. eauto.
    + rewrite lookup_insert_ne by done. apply Hok.
Qed.

(** Nothing but a returned value is ever stored in a result slot. *)
Lemma slots_ok_final sch : slots_ok (final sch init).
Proof.
  apply final_invariant; [|intros s o; apply slots_ok_exec].
  intros id t H. simpl in H. by rewrite lookup_empty in H.
Qed.

(** C3, amended: when the callable of the task a worker is about to
    execute throws, the exception is not caught: the process terminates,
    the task's entry is left as it was, not ready (no error is stored, and
    [request_result] finds nothing to return for the id), and nothing runs
    afterwards. *)
Theorem raising_task_terminates (sch : list op) (w : nat) (th : jthread)
    (task_id : Z) (t : TaskWrapper) (e : exn) :
  let s := final sch init in
  terminated s = false ->
  threads s !! w = Some th ->
  pc th = Holding task_id ->
  results s !! task_id = Some t ->
  func t (args t) = Raised e ->
  let s' := snd (exec (OpWorker w) s) in
  fst (exec (OpWorker w) s) = EvWorker w (Aborted task_id e) /\
  terminated s' = true /\
  results s' = results s /\
  ready t = false /\
  (forall T, request_result T task_id s' = (Blocks, s')) /\
  forall sch', run sch' s' = (replicate (length sch') EvDead, s').
Proof.
  intros s Hterm Hth Hpc Hres Hf.
  assert (Hready : ready t = false).
  { destruct (ready t) eqn:Hr; [|done].
    destruct (slots_ok_final sch task_id t Hres Hr) as (v & _ & Hv). congruence. }
  unfold exec, server_thread, execute.
  rewrite Hterm, Hth, Hpc, Hres, Hf. simpl.
  split; [done|]. split; [done|]. split; [done|]. split; [done|]. split.
  - intros T. unfold request_result, get_result; simpl. by rewrite Hres, Hready.
  - intros sch'. by apply run_terminated.
Qed.

Lemma raising_task_terminates_witness :
  fst (exec (OpWorker 0%nat) s_holding_raise) = EvWorker 0%nat (Aborted 0 (user_exn 3)) /\
  terminated (snd (exec (OpWorker 0%nat) s_holding_raise)) = true.
Proof.
  destruct (raising_task_terminates sch_holding_raise 0%nat
              (mkThread false (Holding 0)) 0 (new_task f_throw 3) (user_exn 3))
    as (H1 & H2 & _); try reflexivity.
  split; [exact H1 | exact H2].
Defined.

(** ** Task ids *)

Lemma exec_nextid o s :
  let '(e, s') := exec o s in
  submitted [e] = [] /\ nextid s' = nextid s \/
  submitted [e] = [nextid s] /\ nextid s' = to_int (nextid s + 1).
Proof. exec_cases o s; auto. Qed.

(** The ids issued in a run from [init] are the successive values of the
    counter, converted to [int]. *)
Lemma submitted_ids sch :
  nextid (final sch init) = to_int (Z.of_nat (length (submitted (trace sch init)))) /\
  forall (i : nat) id, submitted (trace sch init) !! i = Some id -> id = to_int (Z.of_nat i).
Proof.
  apply (run_invariant init (fun tr s =>
    nextid s = to_int (Z.of_nat (length (submitted tr))) /\
    forall (i : nat) id, submitted tr !! i = Some id -> id = to_int (Z.of_nat i))).
  - split; [done|]. intros i id H. by destruct i.
  - intros tr s o [Hn Hids]. pose proof (exec_nextid o s) as He.
    destruct (exec o s) as [e s']; simpl.
    unfold submitted in *. rewrite omap_app, length_app.
    destruct He as [[-> E]|[-> E]]; simpl.
    + rewrite app_nil_r, Nat.add_0_r. by rewrite E.
    + split.
      * rewrite E, Hn, to_int_succ. f_equal. lia.
      * intros i id Hl. apply lookup_app_Some in Hl as [Hl|[Hge Hl]]; [by eauto|].
        apply list_lookup_singleton_Some in Hl as [Hz <-].
        rewrite Hn. f_equal. lia.
Qed.

(** C9, amended: the i-th id issued (counting from 0) is [i] converted to
    [int].  Hence the first 2^31 ids are 0, 1, 2, ... in increasing order,
    and two submissions get the same id exactly when their positions
    differ by a multiple of 2^32. *)
Theorem task_ids_until_wrap (sch : list op) (i j : nat) (idi idj : Z) :
  submitted (trace sch init) !! i = Some idi ->
  submitted (trace sch init) !! j = Some idj ->
  idi = to_int (Z.of_nat i) /\
  ((i < j)%nat -> Z.of_nat j <= INT_MAX -> idi = Z.of_nat i /\ idi < idj) /\
  (idi = idj <-> (Z.of_nat i - Z.of_nat j) mod 4294967296 = 0).
Proof.
  intros Hi Hj. destruct (submitted_ids sch) as [_ Hids].
  apply Hids in Hi, Hj. subst. split; [done|]. split.
  - unfold INT_MAX. intros Hlt Hmax.
    rewrite !to_int_id by (unfold in_int, INT_MIN, INT_MAX; lia). lia.
  - apply to_int_eq_iff.
Qed.

Lemma task_ids_until_wrap_witness :
  1 = to_int (Z.of_nat 1) /\ (1 = Z.of_nat 1 /\ 1 < 2).
Proof.
  destruct (task_ids_until_wrap sch_three 1 2 1 2) as (H1 & H2 & _);
    [vm_compute; reflexivity..|].
  split; [exact H1|]. apply H2; [lia | unfold INT_MAX; lia].
Defined.

Lemma add_only_run {A : Type} (f : A -> call_result) (a : A) (n : nat) (s : State) :
  terminated s = false -> mut s = false ->
  length (submitted (trace (replicate n (OpAddTask f a)) s)) = n /\
  terminated (final (replicate n (OpAddTask f a)) s) = false.
Proof.
  revert s. induction n as [|n IH]; intros s Hs Hm; [done|].
  unfold trace, final. cbn [replicate run]. unfold exec. rewrite Hs, Hm.
  cbn [add_task].
  match goal with |- context [run _ ?s1] =>
    destruct (IH s1) as [IH1 IH2]; [done..|];
    unfold trace, final in IH1, IH2; destruct (run _ s1) as [tr s2] end.
  simpl in *. by rewrite IH1.
Qed.

Lemma add_only_lookup (n i : nat) :
  (i < n)%nat ->
  submitted (trace (replicate n (OpAddTask f_sq 0)) init) !! i = Some (to_int (Z.of_nat i)).
Proof.
  intros Hlt.
  destruct (lookup_lt_is_Some_2 (submitted (trace (replicate n (OpAddTask f_sq 0)) init)) i)
    as [id Hid].
  { by rewrite (proj1 (add_only_run f_sq 0 n init eq_refl eq_refl)). }
  rewrite Hid. f_equal. by apply (proj2 (submitted_ids _) _ _ Hid).
Qed.

(** C9, as the claim states it, fails: [nextid] is an [int], so after
    2^31 submissions the id drops from [INT_MAX] to [INT_MIN], and after
    2^32 submissions id 0 is issued a second time. *)
Lemma task_id_wraps_example :
  exists (sch : list op) (i j k : nat),
    (i < j)%nat /\ (0 < k)%nat /\
    submitted (trace sch init) !! i = Some INT_MAX /\
    submitted (trace sch init) !! j = Some INT_MIN /\
    submitted (trace sch init) !! 0%nat = Some 0 /\
    submitted (trace sch init) !! k = Some 0.
Proof.
  exists (replicate (Z.to_nat 4294967297) (OpAddTask f_sq 0)),
    (Z.to_nat 2147483647), (Z.to_nat 2147483648), (Z.to_nat 4294967296).
  split; [lia|]. split; [lia|].
  rewrite !add_only_lookup by lia.
  rewrite !Z2Nat.id by lia.
  repeat split.
Qed.

(** ** Presence in the registry *)

Lemma registered_snoc tr e id :
  registered (tr ++ [e]) id = default (registered tr id) (touch e id).
Proof. unfold registered. by rewrite foldl_app. Qed.

Lemma submitted_snoc tr e : submitted (tr ++ [e]) = submitted tr ++ submitted [e].
Proof. unfold submitted. by rewrite omap_app. Qed.

Lemma touch_submitted e id :
  id ∈ submitted [e] <-> touch e id = Some true.
Proof.
  destruct e as [id'| |T id' [v| |]| | | |]; simpl;
    try case_decide; subst; split; try done;
    rewrite ?list_elem_of_singleton, ?elem_of_nil; try done; congruence.
Qed.

Lemma touch_retrieved e id :
  touch e id = Some false <-> exists T v, e = EvRequest T id (Ok v).
Proof.
  destruct e as [id'| |T id' [v| |]| | | |]; simpl;
    try case_decide; subst; split; try done;
    try (intros (?&?&?); congruence); eauto.
Qed.

(** [registered] in words: [id] is not registered exactly when it was
    never issued, or was retrieved and not issued again since. *)
Lemma registered_false tr id :
  registered tr id = false <-> id ∉ submitted tr \/ retrieved tr id.
Proof.
  induction tr as [|e tr IH] using rev_ind.
  - split; [left; apply not_elem_of_nil|done].
  - rewrite registered_snoc, submitted_snoc, not_elem_of_app.
    destruct (touch e id) as [[]|] eqn:Ht; simpl.
    + (* issued last *)
      apply touch_submitted in Ht. split; [done|].
      intros [[_ Hn]|(tr1 & T & v & tr2 & E & Hn)]; [done|].
      destruct tr2 as [|e2 tr2] using rev_ind.
      * apply app_inj_tail in E as [_ ->]. simpl in Ht. set_solver.
      * rewrite app_comm_cons, app_assoc in E. apply app_inj_tail in E as [_ ->].
        rewrite submitted_snoc in Hn. set_solver.
    + (* retrieved last *)
      apply touch_retrieved in Ht as (T & v & ->).
      split; [|done]. intros _. right. exists tr, T, v, []. split; [done|].
      apply not_elem_of_nil.
    + (* untouched *)
      assert (Hs : id ∉ submitted [e]).
      { rewrite touch_submitted. congruence. }
      rewrite IH. split.
      * intros [Hn|(tr1 & T & v & tr2 & -> & Hn)]; [by left|].
        right. exists tr1, T, v, (tr2 ++ [e]). split.
        -- by rewrite app_comm_cons, app_assoc.
        -- rewrite submitted_snoc. by apply not_elem_of_app.
      * intros [[Hn _]|(tr1 & T & v & tr2 & E & Hn)]; [by left|].
        right. destruct tr2 as [|e2 tr2] using rev_ind.
        -- apply app_inj_tail in E as [_ ->]. simpl in Ht.
           by rewrite decide_True in Ht.
        -- rewrite app_comm_cons, app_assoc in E. apply app_inj_tail in E as [-> ->].
           rewrite submitted_snoc in Hn. apply not_elem_of_app in Hn as [Hn _].
           by exists tr1, T, v, tr2.
Qed.

Lemma exec_registry o s id :
  let '(e, s') := exec o s in
  match touch e id with
  | Some true => is_Some (results s' !! id)
  | Some false => results s' !! id = None
  | None => is_Some (results s' !! id) <-> is_Some (results s !! id)
  end.
Proof.
  exec_cases o s; try done; repeat case_decide; subst;
    rewrite ?lookup_insert_eq, ?lookup_delete_eq, ?lookup_insert_ne,
      ?lookup_delete_ne by done; try done.
  rename select (results s !! _ = Some _) into Hl.
  destruct (decide (task_id = id)) as [->|Hne].
  - rewrite lookup_insert_eq, Hl. split; eauto.
  - by rewrite lookup_insert_ne.
Qed.

(** The registry holds exactly the registered ids. *)
Lemma registry_registered sch id :
  is_Some (results (final sch init) !! id) <-> registered (trace sch init) id = true.
Proof.
  revert id. apply (run_invariant init (fun tr s => forall id,
    is_Some (results s !! id) <-> registered tr id = true)).
  - intros id. unfold registered; simpl. rewrite lookup_empty.
    split; [by intros [? ?]|done].
  - intros tr s o IH id. pose proof (exec_registry o s id) as He.
    destruct (exec o s) as [e s']; simpl. rewrite registered_snoc.
    destruct (touch e id) as [[]|]; simpl.
    + done.
    + rewrite He. split; [by intros [? ?]|done].
    + by rewrite He.
Qed.



(** ** Positions of the threads, and the lock *)

Lemma at_pc_set_pc s w p w' q :
  at_pc (set_pc w p s) w' q <->
  (w' = w /\ p = q /\ is_Some (threads s !! w)) \/ (w' <> w /\ at_pc s w' q).
Proof.
  unfold at_pc. setoid_rewrite lookup_set_pc. case_decide as Hw.
  - subst w'. split.
    + intros (th & Hth & Hpc). left.
      destruct (threads s !! w) as [t|]; simplify_eq/=. eauto.
    + intros [(_ & -> & t & ->)|[? _]]; [|done]. simpl. eauto.
  - split; [intros H; right; split; [congruence|done]|].
    intros [[? _]|[_ H]]; [congruence|done].
Qed.

Lemma at_pc_request_stop s w w' q : at_pc (request_stop w s) w' q <-> at_pc s w' q.
Proof.
  unfold at_pc. setoid_rewrite lookup_request_stop. case_decide as Hw; [|done].
  subst w'. destruct (threads s !! w) as [t|]; simpl; [|by split; intros (?&?&?)].
  split; intros (th & Hth & Hpc); simplify_eq/=; eauto.
Qed.

Lemma at_pc_stop s w q : at_pc (snd (stop s)) w q <-> at_pc s w q.
Proof. unfold stop. destruct (server_t s); [apply at_pc_request_stop|done]. Qed.

Lemma at_pc_spawn s s' w q :
  threads s' = threads s ++ [mkThread false AtLoopHead] ->
  q <> AtLoopHead ->
  at_pc s' w q <-> at_pc s w q.
Proof.
  intros E Hq. unfold at_pc. rewrite E. split; intros (th & Hth & Hpc).
  - apply lookup_app_Some in Hth as [Hth|[_ Hth]]; [by eauto|].
    apply list_lookup_singleton_Some in Hth as [_ <-]. done.
  - exists th. split; [|done]. by apply lookup_app_l_Some.
Qed.

Lemma at_pc_same s s' w q : threads s' = threads s -> at_pc s' w q <-> at_pc s w q.
Proof. intros E. unfold at_pc. by rewrite E. Qed.

Lemma at_pc_lookup s w j q : threads s !! w = Some j -> at_pc s w q <-> pc j = q.
Proof.
  intros Hj. unfold at_pc. rewrite Hj. split; [by intros (? & [= <-] & ?)|eauto].
Qed.

Lemma lock_ok_frame s s' :
  mut s' = mut s ->
  (forall w, woken s' w <-> woken s w) ->
  ((exists w, woken s w) -> tasks s' <> []) ->
  lock_ok s -> lock_ok s'.
Proof.
  intros Em Hw Ht (Hm & Hu & Hq). unfold lock_ok.
  rewrite Em. setoid_rewrite Hw. split; [done|]. split; [done|]. eauto.
Qed.

Lemma lock_ok_free s : lock_ok s -> mut s = false -> forall w, ~ woken s w.
Proof.
  intros (Hm & _ & _) Hf w Hw.
  assert (mut s = true) by (apply Hm; eauto). congruence.
Qed.

Lemma lock_ok_exec o s : lock_ok s -> lock_ok (snd (exec o s)).
Proof.
  intros Hok. pose proof Hok as (Hm & Hu & Hq).
  exec_cases o s; try done.
  - (* add_task *)
    apply (lock_ok_frame s); [done..| |done].
    intros [w Hw]. by apply lock_ok_free in Hw.
  - (* the loop is left *)
    apply (lock_ok_frame s); [done| |by intros [w' ?%Hq]|done].
    intros w'. rewrite at_pc_set_pc. split; [by intros [(_ & [=] & _)|[_ ?]]|].
    intros Hw'. right. split; [|done]. intros ->.
    eapply at_pc_lookup in Hw'; [|done]. congruence.
  - (* the wait is over: the lock is taken *)
    rename select (mut s = false) into Hfree.
    assert (Hnone : forall w', ~ woken s w') by (by apply lock_ok_free).
    unfold lock_ok. setoid_rewrite at_pc_set_pc. simpl.
    split; [|split].
    + split; [|done]. intros _. exists w. left. eauto.
    + intros w1 w2 [(-> & _)|[_ Hw1]] [(-> & _)|[_ Hw2]]; try done;
        by exfalso; eapply Hnone.
    + intros w' _. rename select (tasks s = _ :: _) into Et. by rewrite Et.
  - (* woken with an empty queue: impossible *)
    exfalso. eapply Hq; [by eapply at_pc_lookup|done].
  - (* an id is popped: the lock is released *)
    assert (Hw : woken s w) by (by eapply at_pc_lookup).
    assert (Hnone : forall w', ~ woken (set_pc w (Holding z) (set_mut false (set_tasks l s))) w').
    { intros w'. rewrite at_pc_set_pc. intros [(_ & [=] & _)|[Hne H]].
      apply Hne. by apply Hu. }
    split; [|split].
    + split; [done|]. by intros [w' ?%Hnone].
    + intros w1 w2 ?%Hnone. done.
    + intros w' ?%Hnone. done.
  - (* the task is executed *)
    apply (lock_ok_frame s); [done| |by intros [w' ?%Hq]|done].
    intros w'. rewrite at_pc_set_pc. split; [by intros [(_ & [=] & _)|[_ ?]]|].
    intros Hw'. right. split; [|done]. intros ->.
    eapply at_pc_lookup in Hw'; [|done]. congruence.
  - (* the task is not there *)
    apply (lock_ok_frame s); [done| |by intros [w' ?%Hq]|done].
    intros w'. rewrite at_pc_set_pc. split; [by intros [(_ & [=] & _)|[_ ?]]|].
    intros Hw'. right. split; [|done]. intros ->.
    eapply at_pc_lookup in Hw'; [|done]. congruence.
  - (* start, replacing a thread *)
    apply (lock_ok_frame s); [done| |by intros [w' ?%Hq]|done].
    intros w'.
    rewrite (at_pc_same (request_stop n (set_threads
      (threads s ++ [mkThread false AtLoopHead]) s))) by done.
    rewrite at_pc_request_stop. by apply at_pc_spawn.
  - (* start, replacing a thread and waiting for it *)
    apply (lock_ok_frame s); [done| |by intros [w' ?%Hq]|done].
    intros w'.
    rewrite (at_pc_same (request_stop n (set_threads
      (threads s ++ [mkThread false AtLoopHead]) s))) by done.
    rewrite at_pc_request_stop. by apply at_pc_spawn.
  - (* start *)
    apply (lock_ok_frame s); [done| |by intros [w' ?%Hq]|done].
    intros w'. by apply at_pc_spawn.
  - (* stop *)
    apply (lock_ok_frame s); [done| |by intros [w' ?%Hq]|done].
    intros w'. apply at_pc_request_stop.
Qed.

(** The lock does what it is there for, in every run. *)
Lemma lock_ok_final sch : lock_ok (final sch init).
Proof.
  apply final_invariant; [|intros s o; apply lock_ok_exec].
  assert (Hno : forall w, ~ woken init w).
  { intros w (th & Hth & _). by destruct w. }
  split; [|split].
  - split; [done|]. by intros [w ?%Hno].
  - intros w w' ?%Hno. done.
  - intros w ?%Hno. done.
Qed.

(** A worker never comes back to [lock.lock()] with the lock owned. *)
Lemma no_lock_error sch w :
  fst (exec (OpWorker w) (final sch init)) <> EvWorker w LockError.
Proof.
  destruct (lock_ok_final sch) as (_ & _ & Hq).
  unfold exec, server_thread, execute.
  repeat case_match; simplify_eq/=; try done.
  exfalso. eapply Hq; [by eapply at_pc_lookup|done].
Qed.

(** ** Starting while the server is running *)

Lemma finished_at_pc s w :
  (w < length (threads s))%nat -> finished w s = true <-> at_pc s w Exited.
Proof.
  intros Hw. unfold finished, at_pc.
  destruct (lookup_lt_is_Some_2 _ _ Hw) as [th Hth]. rewrite Hth. split.
  - intros H. exists th. split; [done|]. by destruct (pc th).
  - intros (th' & [= <-] & ->). done.
Qed.

Lemma finished_lookup s w th :
  threads s !! w = Some th -> finished w s = true -> pc th = Exited.
Proof. unfold finished. intros ->. by destruct (pc th). Qed.

(** A step that moves no thread keeps [join_ok]. *)
Lemma join_ok_same s s' :
  threads s' = threads s -> server_t s' = server_t s -> joining s' = joining s ->
  join_ok s -> join_ok s'.
Proof. intros Et Es Ej. unfold join_ok. by rewrite Et, Es, Ej. Qed.

(** So does a step of a thread that has not left [server_thread]. *)
Lemma join_ok_alter (f : jthread -> jthread) w j s s' :
  threads s' = alter f w (threads s) ->
  server_t s' = server_t s -> joining s' = joining s ->
  threads s !! w = Some j -> pc j <> Exited \/ pc (f j) = Exited ->
  join_ok s -> join_ok s'.
Proof.
  intros Et Es Ej Hw Hpc [Hj Hex]. unfold join_ok. rewrite Et, Es, Ej.
  rewrite length_alter. split; [done|].
  intros w' th. rewrite list_lookup_alter. case_decide as Hd.
  - subst w'. rewrite Hw. simpl. intros [= <-] H1 H2.
    destruct Hpc as [Hpc|Hpc]; [|done]. exfalso. apply Hpc. by eapply Hex.
  - apply Hex.
Qed.

Lemma join_ok_exec o s : threads_ok s -> join_ok s -> join_ok (snd (exec o s)).
Proof.
  intros Hok Hjo.
  exec_cases o s; try done;
    try (by apply (join_ok_same s));
    try (eapply (join_ok_alter _ w _ s); [reflexivity|done..|left; congruence|done]).
  - (* a waiting start() goes on: the thread it waited for has left *)
    destruct Hjo as [Hj Hex]. split; [done|]. simpl.
    intros w th Hw Hne _. destruct (decide (w = n)) as [->|Hd].
    + rename select (finished _ _ = true) into Hfin. by apply (finished_lookup s n).
    + apply (Hex w th Hw Hne). congruence.
  - (* start, which need not wait *)
    destruct Hok as [Hs _]. destruct Hjo as [_ Hex].
    rename select (server_t s = Some _) into Eold. rewrite Eold in Hs, Hex.
    rename select (finished _ _ = true) into Hfin.
    split; simpl; [congruence|].
    intros w th Hw Hne _.
    destruct (decide (w = n)) as [->|Hd]; [eapply finished_lookup; [|exact Hfin]; exact Hw|].
    rewrite list_lookup_alter_ne in Hw by done.
    apply lookup_app_Some in Hw as [Hw|[Hge Hw]].
    + apply (Hex w th Hw); congruence.
    + apply list_lookup_singleton_Some in Hw as [Hz _].
      exfalso. apply Hne. f_equal. lia.
  - (* start, which waits *)
    destruct Hok as [Hs _]. destruct Hjo as [_ Hex].
    rename select (server_t s = Some _) into Eold. rewrite Eold in Hs, Hex.
    split; simpl.
    + intros old [= <-]. rewrite length_alter, length_app. simpl.
      split; [lia|]. split; [intros [= E]; lia|]. f_equal. lia.
    + intros w th Hw Hne Hnj.
      assert (Hd : n <> w) by congruence.
      rewrite list_lookup_alter_ne in Hw by done.
      apply lookup_app_Some in Hw as [Hw|[Hge Hw]].
      * apply (Hex w th Hw); congruence.
      * apply list_lookup_singleton_Some in Hw as [Hz _].
        exfalso. apply Hne. f_equal. lia.
  - (* the first start *)
    destruct Hok as [Hs _].
    rename select (server_t s = None) into Eold. rewrite Eold in Hs.
    split; simpl; [congruence|]. rewrite Hs. simpl.
    intros [|w] th Hw Hne _; [done|]. by destruct w.
  - (* stop *)
    destruct Hjo as [Hj Hex]. split; simpl.
    + intros old Hold. rewrite length_alter. by apply Hj.
    + intros w th. rewrite list_lookup_alter. case_decide as Hd; [|by apply Hex].
      subst. destruct (threads s !! w) as [t|] eqn:Ht; [|done]. simpl.
      intros [= <-] Hne Hnj. simpl. by eapply Hex.
Qed.

Lemma join_ok_final sch : join_ok (final sch init).
Proof.
  apply (final_invariant init (fun s => threads_ok s /\ join_ok s)).
  - split; [|split; [done|]].
    + split; [done|]. intros w th Hl. by destruct w.
    + intros w th Hl. by destruct w.
  - intros s o [Hok Hjo]. split; [by apply threads_ok_exec|by apply join_ok_exec].
Qed.

(** C7, amended: [start()] never reports an error, also when the server
    is running.  Every call first spawns a new worker thread; when the
    server already had a thread, that one is asked to stop, and the call
    returns only when it has left [server_thread]: at once if it has
    already, and otherwise the call waits for it, without notifying it.
    When the call returns, the thread it has spawned is the server's.
    Every thread but the new one has been asked to stop; and whenever no
    call of [start()] is waiting, every thread but the server's has left
    [server_thread]. *)
Theorem start_spawns_and_replaces (sch : list op) :
  let s := final sch init in
  let w := length (threads s) in
  let s' := snd (start s) in
  (forall e, fst (start s) <> Throw e) /\
  (joining s = None ->
   length (threads s') = S w /\
   threads s' !! w = Some (mkThread false AtLoopHead) /\
   (fst (start s) = Ok tt -> server_t s' = Some w /\ joining s' = None) /\
   match server_t s with
   | Some old =>
       old <> w /\
       threads s' !! old = (fun th => mkThread true (pc th)) <$> threads s !! old /\
       (fst (start s) = Ok tt <-> at_pc s old Exited) /\
       (fst (start s) = Blocks <-> joining s' = Some old)
   | None => fst (start s) = Ok tt
   end /\
   forall w' th, threads s' !! w' = Some th -> w' <> w -> stop_requested th = true) /\
  (forall old, joining s = Some old ->
   (fst (start s) = Ok tt <-> at_pc s old Exited) /\
   (fst (start s) = Blocks <-> ~ at_pc s old Exited) /\
   threads s' = threads s /\
   (fst (start s) = Ok tt ->
    server_t s' = Some (pred (length (threads s))) /\ joining s' = None)) /\
  (joining s = None ->
   forall w' th, threads s !! w' = Some th -> server_t s <> Some w' -> pc th = Exited).
Proof.
  intros s w s'. destruct (threads_ok_final sch) as [Hs Hall]. fold s in Hs, Hall.
  destruct (join_ok_final sch) as [Hj Hex]. fold s in Hj, Hex.
  split; [|split; [|split]].
  - intros e. unfold start. repeat case_match; done.
  - intros Hnone. subst s' w. unfold start. rewrite Hnone.
    destruct (server_t s) as [old|] eqn:Eold.
    + set (s2 := set_server_t (Some (length (threads s)))
                   (request_stop old (set_threads
                      (threads s ++ [mkThread false AtLoopHead]) s))).
      assert (Hfin : finished old s2 = true <-> at_pc s old Exited).
      { rewrite finished_at_pc by (simpl; rewrite length_alter, length_app; simpl; lia).
        rewrite (at_pc_same (request_stop old (set_threads
          (threads s ++ [mkThread false AtLoopHead]) s)) s2) by done.
        rewrite at_pc_request_stop. by apply at_pc_spawn. }
      assert (Hs2 : length (threads s2) = S (length (threads s)) /\
                threads s2 !! length (threads s) = Some (mkThread false AtLoopHead) /\
                threads s2 !! old = (fun th => mkThread true (pc th)) <$> threads s !! old /\
                forall w' th, threads s2 !! w' = Some th -> w' <> length (threads s) ->
                              stop_requested th = true).
      { simpl. rewrite length_alter, length_app; simpl.
        split; [lia|]. split; [|split].
        - rewrite list_lookup_alter_ne by lia.
          by rewrite lookup_app_r, Nat.sub_diag by lia.
        - rewrite list_lookup_alter_eq. by rewrite lookup_app_l by done.
        - intros w' th. rewrite list_lookup_alter. case_decide as Hw.
          + subst. rewrite lookup_app_l by done.
            destruct (threads s !! w'); by intros; simplify_eq/=.
          + intros [Hl|[Hge Hl]]%lookup_app_Some Hne.
            * apply (Hall w' th Hl). congruence.
            * apply list_lookup_singleton_Some in Hl as [Hz _]. lia. }
      destruct Hs2 as (Hlen & Hnew & Hold & Hstop).
      destruct (finished old s2) eqn:E; simpl.
      * split; [done|]. split; [done|]. split; [done|]. split; [|done].
        split; [lia|]. split; [done|]. split; [by rewrite <- Hfin|].
        split; [done|]. rewrite Hnone. done.
      * split; [done|]. split; [done|]. split; [done|]. split; [|done].
        split; [lia|]. split; [done|]. split; [|done].
        rewrite <- Hfin. split; done.
    + simpl. rewrite length_app; simpl.
      split; [lia|]. split; [|split; [done|split; [done|]]].
      * by rewrite lookup_app_r, Nat.sub_diag by lia.
      * rewrite Hs. simpl. intros [|w'] th; [done|]. by destruct w'.
  - intros old Hold. destruct (Hj old Hold) as (Hlt & _ & Hsrv).
    subst s'. unfold start. rewrite Hold.
    rewrite <- (finished_at_pc s old Hlt).
    destruct (finished old s); simpl; repeat split; done.
  - intros Hnone w' th Hw Hne. apply (Hex w' th Hw Hne). congruence.
Qed.

(** ** Stopping *)

(** Induction over the runs whose operations all satisfy [A]. *)
Lemma run_invariant_on (A : op -> Prop) (s0 : State) (P : list event -> State -> Prop) :
  P [] s0 ->
  (forall tr s o, A o -> P tr s -> P (tr ++ [fst (exec o s)]) (snd (exec o s))) ->
  forall sch, Forall A sch -> P (trace sch s0) (final sch s0).
Proof.
  intros H0 Hstep sch. induction sch as [|o sch IH] using rev_ind; [done|].
  intros [Hsch Ho]%Forall_app. rewrite Forall_singleton in Ho.
  rewrite trace_snoc, final_snoc. apply Hstep; auto.
Qed.

Lemma no_start_Forall sch : no_start sch = true -> Forall (fun o => o <> OpStart) sch.
Proof.
  unfold no_start. rewrite forallb_forall, Forall_forall.
  intros H o Ho%list_elem_of_In%H. by destruct o.
Qed.

Lemma all_stopping_stop sch : all_stopping (snd (stop (final sch init))).
Proof.
  destruct (threads_ok_final sch) as [Hs Hall]. unfold stop, all_stopping.
  destruct (server_t (final sch init)) as [w0|] eqn:E; simpl.
  - intros w th. rewrite list_lookup_alter. case_decide as Hw.
    + subst. destruct (threads _ !! w); by intros; simplify_eq/=.
    + intros Hth. apply (Hall w th Hth). congruence.
  - rewrite Hs. intros w th. by destruct w.
Qed.

Lemma all_stopping_alter (f : jthread -> jthread) w s s' :
  threads s' = alter f w (threads s) ->
  (forall t, stop_requested t = true -> stop_requested (f t) = true) ->
  all_stopping s -> all_stopping s'.
Proof.
  intros E Hf Hs w' th. rewrite E, list_lookup_alter.
  case_decide; [|by eauto]. subst.
  destruct (threads s !! w') as [t|] eqn:Ht; intros; simplify_eq/=.
  apply Hf. eauto.
Qed.

Lemma elem_of_snoc_event (tr : list event) e e' : e' ∈ tr ++ [e] <-> e' ∈ tr \/ e' = e.
Proof. rewrite elem_of_app, list_elem_of_singleton. done. Qed.

Lemma dequeued_snoc tr e : dequeued (tr ++ [e]) = dequeued tr ++ dequeued [e].
Proof. unfold dequeued. by rewrite omap_app. Qed.

(** Once every thread has been asked to stop, and as long as no new one
    is started: a worker that is past its test of the stop token still
    pops an id, and no other pop is made; the tasks executed are those of
    the ids popped before or by that pop. *)
Lemma stopping_run (s0 : State) (sch : list op) :
  all_stopping s0 ->
  (forall w w', woken s0 w -> woken s0 w' -> w = w') ->
  Forall (fun o => o <> OpStart) sch ->
  let tr := trace sch s0 in
  let s := final sch s0 in
  all_stopping s /\
  (forall w, woken s w -> woken s0 w /\ dequeued tr = []) /\
  ((length (dequeued tr) <= 1)%nat /\ (dequeued tr <> [] -> exists w, woken s0 w)) /\
  dequeued tr ++ tasks s = tasks s0 ++ submitted tr /\
  (forall w id, holds s w id -> holds s0 w id \/ id ∈ dequeued tr) /\
  (forall w id, EvWorker w (Executed id) ∈ tr -> holds s0 w id \/ id ∈ dequeued tr).
Proof.
  intros H0 Huniq Hsch.
  apply (run_invariant_on (fun o => o <> OpStart) s0 (fun tr s =>
    all_stopping s /\
    (forall w, woken s w -> woken s0 w /\ dequeued tr = []) /\
    ((length (dequeued tr) <= 1)%nat /\ (dequeued tr <> [] -> exists w, woken s0 w)) /\
    dequeued tr ++ tasks s = tasks s0 ++ submitted tr /\
    (forall w id, holds s w id -> holds s0 w id \/ id ∈ dequeued tr) /\
    (forall w id, EvWorker w (Executed id) ∈ tr -> holds s0 w id \/ id ∈ dequeued tr)));
    [|clear sch Hsch|done].
  - split; [done|]. split; [by auto|]. split; [split; [simpl; lia|done]|].
    split; [by rewrite app_nil_r|]. split; [by auto|].
    intros w id H. by apply elem_of_nil in H.
  - intros tr s o Ho (Hstop & Hwok & [Hlen Hne] & Hq & Hheld & Hex).
    (* a step that pops nothing *)
    assert (Hframe : forall e s',
      dequeued [e] = [] ->
      (forall w id, e = EvWorker w (Executed id) -> holds s w id) ->
      all_stopping s' ->
      (forall w, woken s' w -> woken s w) ->
      (forall w id, holds s' w id -> holds s w id) ->
      tasks s' = tasks s ++ submitted [e] ->
      all_stopping s' /\
      (forall w, woken s' w -> woken s0 w /\ dequeued (tr ++ [e]) = []) /\
      ((length (dequeued (tr ++ [e])) <= 1)%nat /\
       (dequeued (tr ++ [e]) <> [] -> exists w, woken s0 w)) /\
      dequeued (tr ++ [e]) ++ tasks s' = tasks s0 ++ submitted (tr ++ [e]) /\
      (forall w id, holds s' w id -> holds s0 w id \/ id ∈ dequeued (tr ++ [e])) /\
      (forall w id, EvWorker w (Executed id) ∈ tr ++ [e] ->
                    holds s0 w id \/ id ∈ dequeued (tr ++ [e]))).
    { intros e s' He Hexe Hs' Hw' Hh' Ht'.
      rewrite dequeued_snoc, He, app_nil_r, submitted_snoc, Ht'.
      split; [done|]. split; [by auto|]. split; [done|].
      split; [by rewrite !app_assoc, Hq|]. split; [by auto|].
      intros w id [H|H]%elem_of_snoc_event; [by auto|]. apply Hheld. by eapply Hexe. }
    exec_cases o s;
      try (rename select (stop_requested _ = false) into Hf;
           rename select (threads _ !! _ = Some _) into Hth;
           apply Hstop in Hth; congruence);
      try (match goal with
           | |- all_stopping ?s' /\ (forall w, _ -> _ /\ dequeued (tr ++ [?e]) = []) /\ _ =>
               apply (Hframe e s')
           end; simpl; rewrite ?app_nil_r;
           [ done
           | intros w' id' ?; simplify_eq; by eapply at_pc_lookup
           | first [ exact Hstop
                   | eapply all_stopping_alter; [reflexivity| |exact Hstop]; done ]
           | intros w'; rewrite ?at_pc_set_pc, ?at_pc_request_stop;
             first [ done | by intros [(_ & ? & _)|[_ ?]] ]
           | intros w' id'; rewrite ?at_pc_set_pc, ?at_pc_request_stop;
             first [ done | by intros [(_ & ? & _)|[_ ?]] ]
           | done ]).
    (* the worker that was past its test pops an id *)
    rename select (threads s !! w = Some _) into Hth.
    rename select (pc _ = Woken) into Hpc.
    rename select (tasks s = _ :: _) into Et.
    assert (Hw : woken s w) by (by eapply at_pc_lookup).
    destruct (Hwok w Hw) as [Hw0 Hnil].
    assert (Hnone : forall w', ~ woken (set_pc w (Holding z) (set_mut false (set_tasks l s))) w').
    { intros w'. rewrite at_pc_set_pc. intros [(_ & [=] & _)|[Hww H]].
      apply Hww. apply Huniq; [|done]. by apply Hwok. }
    rewrite dequeued_snoc, submitted_snoc, Hnil. simpl. rewrite app_nil_r.
    split; [eapply all_stopping_alter; [reflexivity| |exact Hstop]; done|].
    split; [by intros w' ?%Hnone|]. split; [split; [lia|eauto]|].
    split; [by rewrite <- Hq, Hnil|]. split.
    + intros w' id'. rewrite at_pc_set_pc.
      intros [(_ & [= ->] & _)|[_ H]]; [right; by left|].
      apply Hheld in H as [H|H]; [by left|]. rewrite Hnil in H. by apply elem_of_nil in H.
    + intros w' id' [H|[=]]%elem_of_snoc_event.
      apply Hex in H as [H|H]; [by left|]. rewrite Hnil in H. by apply elem_of_nil in H.
Qed.

(** C8, as the claim states it, fails: [stop()] sets the stop flag without
    taking [mut].  Here three tasks are submitted and the worker, owning
    the lock, has passed its test of the stop token (line 81) when
    [stop()] is called: ids 0, 1 and 2 are all in the queue at that
    moment, and the worker then pops id 0 and executes its task before it
    leaves the loop. *)
Lemma stop_race_example :
  let s0 := final sch_before_stop init in
  tasks s0 = [0; 1; 2] /\ held s0 = [] /\
  trace [OpStop; OpWorker 0%nat; OpWorker 0%nat; OpWorker 0%nat] s0 =
    [EvStop (Ok tt); EvWorker 0%nat (Dequeued 0); EvWorker 0%nat (Executed 0);
     EvWorker 0%nat LoopExit].
Proof. vm_compute. done. Qed.

(** C8, amended: after [stop()], and as long as the server is not started
    again, a worker at the head of its loop leaves the loop at its next
    step, and at most one id is popped from the queue: none if [mut] was
    free when [stop()] was called, and otherwise (a worker owned [mut])
    at most the id at the front of the queue.  All other ids queued at
    that moment stay in the queue for ever, in front of the ids submitted
    later, and the only tasks executed afterwards are those of the ids a
    worker had popped before the call and of that one id. *)
Theorem stop_abandons_queue (sch0 sch : list op) :
  let s0 := final sch0 init in
  let s := snd (stop s0) in
  let tr := trace sch s in
  no_start sch = true ->
  (forall w th, terminated s = false -> threads s !! w = Some th -> pc th = AtLoopHead ->
                fst (exec (OpWorker w) s) = EvWorker w LoopExit) /\
  (dequeued tr = [] \/
   mut s0 = true /\ exists id q, tasks s0 = id :: q /\ dequeued tr = [id]) /\
  dequeued tr ++ tasks (final sch s) = tasks s0 ++ submitted tr /\
  (forall w id, EvWorker w (Executed id) ∈ tr -> holds s0 w id \/ id ∈ dequeued tr).
Proof.
  intros s0 s tr Hsch%no_start_Forall.
  pose proof (all_stopping_stop sch0) as Hstop. fold s0 s in Hstop.
  destruct (lock_ok_final sch0) as (Hmut & Huniq & Hne). fold s0 in Hmut, Huniq, Hne.
  assert (Hts : tasks s = tasks s0) by (subst s; unfold stop; by destruct (server_t s0)).
  assert (Hpc : forall w p, at_pc s w p -> at_pc s0 w p).
  { intros w p. apply (at_pc_stop s0). }
  destruct (stopping_run s sch Hstop) as (_ & _ & [Hlen Hw] & Hq & _ & Hex); [|done|].
  { intros w w' H1%Hpc H2%Hpc. by apply Huniq. }
  fold tr in Hlen, Hw, Hq, Hex. rewrite Hts in Hq.
  split; [|split; [|split; [done|]]].
  - intros w th Hterm Hth Hhead. unfold exec, server_thread.
    rewrite Hterm, Hth, Hhead. by rewrite (Hstop w th Hth).
  - destruct (dequeued tr) as [|id [|? ?]] eqn:E; [by left| |simpl in Hlen; lia].
    right. destruct Hw as [w Hw]; [done|]. apply Hpc in Hw.
    split; [apply Hmut; eauto|].
    destruct (tasks s0) as [|id' q] eqn:Et; [by apply Hne in Hw|].
    exists id', q. split; [done|]. simpl in Hq. by simplify_eq.
  - intros w id H. apply Hex in H as [H|H]; [left; by apply Hpc|by right].
Qed.

Lemma stop_abandons_queue_witness :
  dequeued (trace sch_after_stop (snd (stop (final sch_before_stop init)))) = [0] /\
  [0] ++ tasks (final sch_after_stop (snd (stop (final sch_before_stop init)))) =
    [0; 1; 2] ++ [3].
Proof.
  destruct (stop_abandons_queue sch_before_stop sch_after_stop) as (_ & _ & H & _);
    [reflexivity|].
  split; [reflexivity|exact H].
Defined.

(** ** Order of execution *)

Lemma handled_snoc tr e : handled (tr ++ [e]) = handled tr ++ handled [e].
Proof. unfold handled. by rewrite omap_app. Qed.

Lemma executed_snoc tr e : executed (tr ++ [e]) = executed tr ++ executed [e].
Proof. unfold executed. by rewrite omap_app. Qed.

Lemma held_alter (f : jthread -> jthread) w s s' :
  threads s' = alter f w (threads s) ->
  (forall t, pc (f t) = pc t) ->
  held s' = held s.
Proof.
  intros E Hf. unfold held. rewrite E. clear E.
  generalize (threads s). intros l. revert w.
  induction l as [|t l IH]; intros [|w]; simpl; try done.
  - by rewrite Hf.
  - change (list_alter f w l) with (alter f w l). by rewrite IH.
Qed.

(** With at most one thread, [held] is read off that thread. *)
Ltac one_thread :=
  match goal with
  | H : threads ?s !! ?w = Some _ |- _ =>
      unfold held in *; simpl;
      destruct (threads s) as [|? [|? ?]]; simpl in *; try lia; [done|];
      destruct w as [|w']; simplify_eq/=; try (by destruct w');
      repeat (match goal with H : pc _ = _ |- _ => rewrite H; clear H end); done
  end.

(** What is popped is what was pushed, in the same order; with a single
    worker thread, what is handled is what was popped, in the same
    order. *)
Lemma fifo_accounting sch :
  let tr := trace sch init in
  let s := final sch init in
  dequeued tr ++ tasks s = submitted tr /\
  ((length (threads s) <= 1)%nat -> handled tr ++ held s = dequeued tr).
Proof.
  apply (run_invariant init (fun tr s =>
    dequeued tr ++ tasks s = submitted tr /\
    ((length (threads s) <= 1)%nat -> handled tr ++ held s = dequeued tr))); [done|].
  intros tr s o [Hq Hh].
  exec_cases o s; rewrite dequeued_snoc, submitted_snoc, handled_snoc; simpl;
    rewrite ?app_nil_r;
    (split;
     [ first [ exact Hq
             | by rewrite app_assoc, Hq
             | by rewrite <- Hq, <- app_assoc
             | rename select (tasks _ = []) into Et; by rewrite Et
             | rename select (tasks _ = _ :: _) into Et; by rewrite Et ]
     | rewrite ?length_alter, ?length_app; simpl; intros Hlen;
       try exact (Hh Hlen) ]).
  - (* the loop is left *)
    rewrite <- (Hh Hlen). f_equal. one_thread.
  - (* the lock is taken *)
    rewrite <- (Hh Hlen). f_equal. one_thread.
  - (* the loop is left, with the lock *)
    rewrite <- (Hh Hlen). f_equal. one_thread.
  - (* an id is popped *)
    rewrite <- (Hh Hlen), <- app_assoc. f_equal. one_thread.
  - (* the task is executed *)
    rewrite <- (Hh Hlen), <- app_assoc. f_equal. one_thread.
  - (* the task is not there *)
    rewrite <- (Hh Hlen), <- app_assoc. f_equal. one_thread.
  - (* start, replacing a thread *)
    assert (Hnil : threads s = []) by (destruct (threads s); [done|simpl in Hlen; lia]).
    rewrite <- Hh by (rewrite Hnil; simpl; lia).
    unfold held; simpl. rewrite Hnil. by destruct n.
  - (* start, replacing a thread and waiting for it *)
    assert (Hnil : threads s = []) by (destruct (threads s); [done|simpl in Hlen; lia]).
    rewrite <- Hh by (rewrite Hnil; simpl; lia).
    unfold held; simpl. rewrite Hnil. by destruct n.
  - (* start *)
    assert (Hnil : threads s = []) by (destruct (threads s); [done|simpl in Hlen; lia]).
    rewrite <- Hh by (rewrite Hnil; simpl; lia).
    unfold held; simpl. by rewrite Hnil.
  - (* stop *)
    rewrite <- (Hh Hlen). f_equal. by eapply held_alter.
Qed.

Lemma pending_same n s s' id :
  results s' = results s -> pending n s' id <-> pending n s id.
Proof. intros E. unfold pending. by rewrite E. Qed.

Lemma queue_ok_frame n s s' :
  tasks s' = tasks s -> results s' = results s ->
  (forall w id, holds s' w id <-> holds s w id) ->
  queue_ok n s -> queue_ok n s'.
Proof.
  intros Et Er Hh (Hq & Hhp & Hnd & Hhq & Hhh). unfold queue_ok, pending.
  rewrite Et, Er. setoid_rewrite Hh. done.
Qed.

Lemma queue_ok_add {A : Type} (f : A -> call_result) (a : A) n s s' :
  0 <= n ->
  tasks s' = tasks s ++ [n] ->
  results s' = <[n := new_task f a]> (results s) ->
  threads s' = threads s ->
  queue_ok n s -> queue_ok (n + 1) s'.
Proof.
  intros Hn Et Er Eth (Hq & Hhp & Hnd & Hhq & Hhh).
  assert (Hup : forall id, pending n s id -> pending (n + 1) s' id).
  { intros id ([? ?] & t & Ht & Hr). split; [lia|]. exists t.
    rewrite Er, lookup_insert_ne by lia. done. }
  unfold queue_ok. rewrite Et. setoid_rewrite (at_pc_same s s'); [|done..].
  split; [|split; [|split; [|split]]].
  - intros id [Hid| ->%list_elem_of_singleton]%elem_of_app; [by auto|].
    split; [lia|]. exists (new_task f a). by rewrite Er, lookup_insert_eq.
  - eauto.
  - apply NoDup_app. split; [done|]. split; [|apply NoDup_singleton].
    intros id Hid ->%list_elem_of_singleton. apply Hq in Hid as [? _]. lia.
  - intros w id H. apply not_elem_of_app. split; [by eauto|].
    intros ->%list_elem_of_singleton. apply Hhp in H as [? _]. lia.
  - done.
Qed.

Lemma queue_ok_delete n s id t :
  results s !! id = Some t -> ready t = true ->
  queue_ok n s -> queue_ok n (set_results (delete id (results s)) s).
Proof.
  intros Ht Hr (Hq & Hhp & Hnd & Hhq & Hhh).
  assert (Hup : forall id', pending n s id' ->
            pending n (set_results (delete id (results s)) s) id').
  { intros id' (? & t' & Ht' & Hr'). split; [done|]. exists t'. simpl.
    rewrite lookup_delete_ne; [done|]. intros <-. congruence. }
  split; [|split]; [by eauto..|done].
Qed.

Lemma holds_set_pc_idle s w j p w' id :
  threads s !! w = Some j ->
  (forall i, pc j <> Holding i) -> (forall i, p <> Holding i) ->
  holds (set_pc w p s) w' id <-> holds s w' id.
Proof.
  intros Hj Hpc Hp. rewrite at_pc_set_pc. split.
  - intros [(_ & E & _)|[_ H]]; [by apply Hp in E|done].
  - intros H. right. split; [|done]. intros ->.
    eapply at_pc_lookup in H; [|done]. by apply Hpc in H.
Qed.

Lemma queue_ok_dequeue n s w j id q :
  tasks s = id :: q -> threads s !! w = Some j -> pc j = Woken ->
  queue_ok n s -> queue_ok n (set_pc w (Holding id) (set_mut false (set_tasks q s))).
Proof.
  intros Et Hj Hpc (Hq & Hhp & Hnd & Hhq & Hhh). rewrite Et in *.
  apply NoDup_cons in Hnd as [Hid Hnd].
  assert (Hw : forall id', ~ holds s w id').
  { intros id'. rewrite (at_pc_lookup s w j) by done. congruence. }
  unfold queue_ok. setoid_rewrite at_pc_set_pc.
  setoid_rewrite (at_pc_same s (set_mut false (set_tasks q s))); [|done..]. simpl.
  split; [|split; [|split; [|split]]].
  - intros id' Hid'. apply (Hq id'). by right.
  - intros w' id' [(-> & [= ->] & _)|[_ H]]; [|by eauto].
    apply (Hq id'). by left.
  - done.
  - intros w' id' [(-> & [= ->] & _)|[_ H]]; [done|].
    apply Hhq in H. by apply not_elem_of_cons in H as [_ H].
  - intros w1 w2 id' [(-> & E1 & _)|[_ H1]] [(-> & E2 & _)|[_ H2]];
      simplify_eq; try done.
    + apply Hhq in H2. exfalso. apply H2. by left.
    + apply Hhq in H1. exfalso. apply H1. by left.
    + by eapply Hhh.
Qed.

Lemma queue_ok_execute n s w j id t' :
  threads s !! w = Some j -> pc j = Holding id ->
  queue_ok n s ->
  queue_ok n (set_pc w AtLoopHead (set_results (<[id := t']> (results s)) s)).
Proof.
  intros Hj Hpc (Hq & Hhp & Hnd & Hhq & Hhh).
  assert (Hw : holds s w id) by (by apply (at_pc_lookup s w j)).
  assert (Hup : forall id', id' <> id -> pending n s id' ->
            pending n (set_pc w AtLoopHead (set_results (<[id := t']> (results s)) s)) id').
  { intros id' Hne (? & t & Ht & Hr). split; [done|]. exists t. simpl.
    by rewrite lookup_insert_ne. }
  unfold queue_ok. setoid_rewrite at_pc_set_pc. simpl.
  split; [|split; [|split; [|split]]].
  - intros id' Hid'. apply Hup; [|by auto]. intros ->. by apply (Hhq w id).
  - intros w' id' [(_ & [=] & _)|[Hne H]]. apply Hup; [|by eauto].
    intros ->. apply Hne. by eapply Hhh.
  - done.
  - intros w' id' [(_ & [=] & _)|[_ H]]. by eauto.
  - intros w1 w2 id' [(_ & [=] & _)|[_ H1]] [(_ & [=] & _)|[_ H2]]. by eapply Hhh.
Qed.

(** As long as the counter has not wrapped, a worker always finds the
    task of the id it has popped. *)
Lemma no_missing sch :
  let tr := trace sch init in
  let s := final sch init in
  Z.of_nat (length (submitted tr)) <= 2147483648 ->
  queue_ok (Z.of_nat (length (submitted tr))) s /\
  (forall w id, EvWorker w (Missing id) ∉ tr).
Proof.
  cut (nextid (final sch init) = to_int (Z.of_nat (length (submitted (trace sch init)))) /\
       (Z.of_nat (length (submitted (trace sch init))) <= 2147483648 ->
        queue_ok (Z.of_nat (length (submitted (trace sch init)))) (final sch init) /\
        (forall w id, EvWorker w (Missing id) ∉ trace sch init))); [by intros [_ H]|].
  apply (run_invariant init (fun tr s =>
    nextid s = to_int (Z.of_nat (length (submitted tr))) /\
    (Z.of_nat (length (submitted tr)) <= 2147483648 ->
     queue_ok (Z.of_nat (length (submitted tr))) s /\
     (forall w id, EvWorker w (Missing id) ∉ tr)))).
  - split; [done|]. intros _. split; [|intros w id; apply not_elem_of_nil].
    assert (Hno : forall w id, ~ holds init w id).
    { intros w id (th & Hth & _). by destruct w. }
    split; [by intros ? ?%elem_of_nil|]. split; [intros w id H; by apply Hno in H|].
    split; [constructor|].
    split; [intros w id H; by apply Hno in H|intros w w' id H; by apply Hno in H].
  - intros tr s o [Hn IH]. split.
    { pose proof (exec_nextid o s) as He. destruct (exec o s) as [e s']; simpl.
      rewrite submitted_snoc, length_app.
      destruct He as [[-> E]|[-> E]]; simpl.
      - by rewrite Nat.add_0_r, E.
      - rewrite E, Hn, to_int_succ. f_equal. lia. }
    exec_cases o s; rewrite submitted_snoc, length_app; simpl; intros Hlen;
    (destruct IH as [Hok Hm]; [lia|]);
    (split; [|intros w' id'; rewrite elem_of_snoc_event; intros [?|?];
              [by eapply Hm|]; simplify_eq]);
    rewrite ?Nat.add_0_r; try exact Hok;
    (* the steps that move no id *)
    try (match goal with
         | H : terminated ?s1 = false |- queue_ok _ _ =>
             apply (queue_ok_frame _ s1); [done..| |done]
         end;
         intros w' id';
         first [ apply at_pc_request_stop
               | by apply at_pc_spawn
               | by apply at_pc_same
               | etrans; [eapply holds_set_pc_idle; [simpl; eassumption|congruence|done]|];
                 by apply at_pc_same ]).
    + (* add_task *)
    rewrite Nat2Z.inj_add in *. rewrite Hn, to_int_id by (unfold in_int, INT_MIN, INT_MAX; lia).
    eapply queue_ok_add; [lia|reflexivity..|done].
    + (* request_result returns *)
    by eapply queue_ok_delete.
    + (* an id is popped *)
    by eapply queue_ok_dequeue.
    + (* the task is executed *)
    by eapply queue_ok_execute.
    + (* the task is not there: impossible *)
    exfalso. destruct Hok as (_ & Hh & _).
    destruct (Hh w task_id) as (_ & t & Ht & _); [by eapply at_pc_lookup|]. congruence.
    + destruct Hok as (_ & Hh & _).
    rename select (pc _ = Holding _) into Hpc.
    rename select (threads s !! _ = Some _) into Hj.
    destruct (Hh _ _ (proj2 (at_pc_lookup _ _ _ _ Hj) Hpc)) as (_ & t & Ht & _).
    congruence.
    + (* start, replacing a thread *)
    apply (queue_ok_frame _ s); [done..| |done].
    intros w' id'.
    rewrite (at_pc_same (request_stop n (set_threads
      (threads s ++ [mkThread false AtLoopHead]) s))) by done.
    rewrite at_pc_request_stop. by apply at_pc_spawn.
    + (* start, replacing a thread and waiting for it *)
    apply (queue_ok_frame _ s); [done..| |done].
    intros w' id'.
    rewrite (at_pc_same (request_stop n (set_threads
      (threads s ++ [mkThread false AtLoopHead]) s))) by done.
    rewrite at_pc_request_stop. by apply at_pc_spawn.
Qed.


Lemma executed_sublist tr : executed tr `sublist_of` handled tr.
Proof.
  induction tr as [|e tr IH]; [done|].
  destruct e as [| | |w o| | |]; simpl; try done.
  destruct o; simpl; try done.
  - by apply sublist_skip.
  - by apply sublist_cons.
Qed.



(** ** The value retrieved *)

Lemma slot_of_execute {A : Type} (f : A -> call_result) (a : A) t v :
  slot_of f a t -> func t (args t) = Returned v ->
  slot_of f a (mkTaskWrapper (Args t) (func t) (args t) (Some v) true).
Proof.
  intros [->|(v' & Hv' & ->)]; simpl; intros Hf; right; by exists v.
Qed.

(** Until its id is issued again, the entry of a submitted task holds the
    wrapper of that task. *)
Lemma slot_kept {A : Type} (f : A -> call_result) (a : A) (id : Z) (s1 : State) sch :
  (forall t, results s1 !! id = Some t -> slot_of f a t) ->
  id ∉ submitted (trace sch s1) ->
  forall t, results (final sch s1) !! id = Some t -> slot_of f a t.
Proof.
  intros H1.
  apply (run_invariant s1 (fun tr s =>
    id ∉ submitted tr -> forall t, results s !! id = Some t -> slot_of f a t)).
  - done.
  - intros tr s o IH.
    exec_cases o s; rewrite submitted_snoc, not_elem_of_app; simpl;
      intros [Hn He]; specialize (IH Hn); try done.
    + intros t. rewrite lookup_insert_ne; [by auto|].
      intros E. apply He. rewrite E. by left.
    + intros t'. destruct (decide (task_id = id)) as [->|Hne].
      * by rewrite lookup_delete_eq.
      * rewrite lookup_delete_ne by done. auto.
    + intros t'. destruct (decide (task_id = id)) as [->|Hne].
      * rewrite lookup_insert_eq. intros [= <-]. apply slot_of_execute; auto.
      * rewrite lookup_insert_ne by done. auto.
Qed.

Lemma serve_step w id q s t v :
  terminated s = false -> mut s = false ->
  threads s !! w = Some (mkThread false AtLoopHead) ->
  tasks s = id :: q ->
  results s !! id = Some t -> func t (args t) = Returned v ->
  exists s',
    run [OpWorker w; OpWorker w; OpWorker w] s =
      ([EvWorker w Woke; EvWorker w (Dequeued id); EvWorker w (Executed id)], s') /\
    terminated s' = false /\ mut s' = false /\
    threads s' !! w = Some (mkThread false AtLoopHead) /\
    tasks s' = q /\
    results s' = <[id := mkTaskWrapper (Args t) (func t) (args t) (Some v) true]> (results s) /\
    nextid s' = nextid s /\ server_t s' = server_t s /\
    length (threads s') = length (threads s).
Proof.
  intros Hterm Hmut Hth Htasks Hres Hf.
  exists (set_pc w AtLoopHead
            (set_results
               (<[id := mkTaskWrapper (Args t) (func t) (args t) (Some v) true]> (results s))
               (set_pc w (Holding id)
                  (set_mut false (set_tasks q (set_pc w Woken (set_mut true s))))))).
  split.
  - unfold run, exec, server_thread, execute; simpl.
    repeat (progress (rewrite ?Hterm, ?Hmut, ?Hth, ?Htasks, ?Hres, ?Hf,
                        ?list_lookup_alter_eq; simpl)).
    reflexivity.
  - simpl. rewrite !list_lookup_alter_eq, Hth, !length_alter. done.
Qed.

Lemma to_int_add a b : to_int (to_int a + b) = to_int (a + b).
Proof.
  unfold to_int.
  replace ((a + 2147483648) mod 4294967296 - 2147483648 + b + 2147483648)
    with ((a + 2147483648) mod 4294967296 + b) by lia.
  rewrite Zplus_mod_idemp_l. f_equal. f_equal. lia.
Qed.

(** What [n] submissions in a row, with the lock free, do to the state. *)
Lemma adds_frame {A : Type} (f : A -> call_result) (a : A) (n : nat) : forall s,
  terminated s = false -> mut s = false -> in_int (nextid s) ->
  let s' := final (replicate n (OpAddTask f a)) s in
  terminated s' = false /\ mut s' = false /\ threads s' = threads s /\
  nextid s' = to_int (nextid s + Z.of_nat n) /\
  exists l, tasks s' = tasks s ++ l.
Proof.
  induction n as [|n IH]; intros s Hterm Hmut Hid.
  - simpl. rewrite Z.add_0_r, to_int_id by done.
    repeat split; try done. exists []. by rewrite app_nil_r.
  - cbn [replicate]. rewrite final_cons.
    assert (E : snd (exec (OpAddTask f a) s) = snd (add_task f a s)).
    { unfold exec. by rewrite Hterm, Hmut. }
    rewrite E.
    destruct (IH (snd (add_task f a s))) as (H1 & H2 & H3 & H4 & l & H5);
      [done|done|apply to_int_range|].
    split; [done|]. split; [done|]. split; [done|]. split.
    + rewrite H4. simpl. rewrite to_int_add. f_equal. lia.
    + exists (nextid s :: l). rewrite H5. simpl. by rewrite <- app_assoc.
Qed.

(** C1, as the claim states it, fails: ids are [int]s taken from a counter
    that wraps.  Here [f_sq<int>(7)] is submitted and gets id 0; 2^32
    submissions of [f_sq<int>(8)] later id 0 has been issued again and its
    entry in the registry holds the later task; the worker pops the first
    id of the queue, 0, and executes what it finds under it; so the
    retrieval of id 0 returns 64, not 49. *)
Lemma reissued_id_example :
  fst (add_task f_sq 7 (final [OpStart] init)) = 0 /\
  f_sq 7 = Returned (Vint 49) /\
  fst (request_result Cint 0
         (final (replicate (Z.to_nat 4294967296) (OpAddTask f_sq 8) ++
                 [OpWorker 0%nat; OpWorker 0%nat; OpWorker 0%nat])
            (snd (add_task f_sq 7 (final [OpStart] init))))) = Ok (Vint 64).
Proof.
  split; [reflexivity|]. split; [reflexivity|].
  set (s1 := snd (add_task f_sq 7 (final [OpStart] init))).
  assert (Hsplit : replicate (Z.to_nat 4294967296) (OpAddTask f_sq 8) =
                   replicate (Z.to_nat 4294967295) (OpAddTask f_sq 8) ++ [OpAddTask f_sq 8]).
  { replace (Z.to_nat 4294967296) with (Z.to_nat 4294967295 + 1)%nat by lia.
    by rewrite replicate_add. }
  rewrite Hsplit. clear Hsplit.
  assert (Hn : Z.of_nat (Z.to_nat 4294967295) = 4294967295) by lia.
  revert Hn. generalize (Z.to_nat 4294967295). intros n Hn.
  destruct (adds_frame f_sq 8 n s1) as (Hterm & Hmut & Hth & Hnext & l & Htasks);
    [reflexivity|reflexivity|by vm_compute|].
  set (s2 := final (replicate n (OpAddTask f_sq 8)) s1) in *.
  assert (Hnext0 : nextid s2 = 0).
  { rewrite Hnext, Hn. reflexivity. }
  assert (Hth0 : threads s2 !! 0%nat = Some (mkThread false AtLoopHead)).
  { by rewrite Hth. }
  destruct (serve_step 0%nat 0 (l ++ [0]) (snd (add_task f_sq 8 s2))
              (new_task f_sq 8) (Vint 64)) as (s4 & Hrun & _ & Hmut4 & _ & _ & Hres4 & _);
    [done|done|done| | |reflexivity|].
  { simpl. by rewrite Htasks, Hnext0. }
  { simpl. rewrite Hnext0. apply lookup_insert_eq. }
  assert (Hrun3 : run [OpAddTask f_sq 8] s2 = ([EvSubmitted 0], snd (add_task f_sq 8 s2))).
  { unfold run, exec. rewrite Hterm, Hmut. simpl. by rewrite Hnext0. }
  rewrite <- app_assoc.
  destruct (run_cons_app (replicate n (OpAddTask f_sq 8))
              ([OpAddTask f_sq 8] ++ [OpWorker 0%nat; OpWorker 0%nat; OpWorker 0%nat])
              s1 _ s2 (surjective_pairing _)) as [_ ->].
  destruct (run_cons_app _ [OpWorker 0%nat; OpWorker 0%nat; OpWorker 0%nat] _ _ _ Hrun3)
    as [_ ->].
  destruct (run_cons_app _ [] _ _ _ Hrun) as [_ E]. rewrite app_nil_r in E. rewrite E.
  change (final [] s4) with s4.
  unfold request_result, get_result, any_cast.
  rewrite Hres4, lookup_insert_eq. simpl. by rewrite Hmut4.
Qed.

(** C1, amended: the value [request_result] returns for the id of a task
    submitted as [add_task(f, a)] is the value of [f a], whatever happens
    between submission and retrieval, provided the id is not issued again
    in between; and with one worker thread, idle, a free lock and an
    empty queue, once the worker has taken the lock, popped the id and
    executed the task, the retrieval does return it. *)
Theorem add_task_then_request_result {A : Type} (f : A -> call_result) (a : A)
    (s0 : State) :
  let id := fst (add_task f a s0) in
  let s1 := snd (add_task f a s0) in
  (forall sch T v,
     id ∉ submitted (trace sch s1) ->
     fst (request_result T id (final sch s1)) = Ok v ->
     f a = Returned v /\ type_of v = T) /\
  (forall v,
     terminated s0 = false -> mut s0 = false -> tasks s0 = [] ->
     threads s0 = [mkThread false AtLoopHead] ->
     f a = Returned v ->
     trace [OpWorker 0%nat; OpWorker 0%nat; OpWorker 0%nat;
            OpRequestResult (type_of v) id] s1 =
       [EvWorker 0%nat Woke; EvWorker 0%nat (Dequeued id); EvWorker 0%nat (Executed id);
        EvRequest (type_of v) id (Ok v)]).
Proof.
  intros id s1. split.
  - intros sch T v Hn Hv.
    destruct (request_result T id (final sch s1)) as [r s'] eqn:E.
    simpl in Hv. subst r.
    apply request_result_ok in E as (_ & t & Ht & Hr & Hres & Hty).
    split; [|done].
    apply (slot_kept f a id s1 sch) in Ht; [|clear Ht|done].
    + destruct Ht as [->|(v' & Hv' & ->)]; [done|].
      simpl in Hres. congruence.
    + intros t'. subst s1 id. simpl. rewrite lookup_insert_eq.
      intros [= <-]. by left.
  - intros v Hterm Hmut Htasks Hth Hf. subst s1 id.
    unfold trace, run, exec, add_task, server_thread, request_result, execute; simpl.
    repeat (progress (rewrite ?Hterm, ?Hmut, ?Hth, ?Htasks, ?lookup_insert_eq,
                        ?Hf, ?decide_True by done; simpl)).
    done.
Qed.

Lemma add_task_then_request_result_witness :
  trace [OpWorker 0%nat; OpWorker 0%nat; OpWorker 0%nat; OpRequestResult Cint 0]
    (snd (add_task f_smthlse (2, 2, 2) (final [OpStart] init))) =
  [EvWorker 0%nat Woke; EvWorker 0%nat (Dequeued 0); EvWorker 0%nat (Executed 0);
   EvRequest Cint 0 (Ok (Vint 6))].
Proof.
  destruct (add_task_then_request_result f_smthlse (2, 2, 2) (final [OpStart] init))
    as [_ H].
  apply (H (Vint 6)); reflexivity.
Defined.

(** ** Several workers *)

Lemma omap_alter_perm {A B : Type} (g : A -> option B) (f : A -> A) (l : list A) w j :
  l !! w = Some j ->
  option_list (g j) ++ omap g (alter f w l) ≡ₚ option_list (g (f j)) ++ omap g l.
Proof.
  revert w. induction l as [|x l IH]; intros [|w] Hj; simplify_eq/=.
  - destruct (g j), (g (f j)); simpl; try done. apply perm_swap.
  - change (list_alter f w l) with (alter f w l).
    destruct (g x) as [y|]; simpl; [|by apply IH].
    rewrite <- !Permutation_middle. f_equiv. by apply IH.
Qed.

(** Moving thread [w] from one position to another moves the id it
    holds, if any, out of [held], and the id it then holds into it. *)
Lemma held_set_pc w j p s :
  threads s !! w = Some j ->
  option_list (held_id j) ++ held (set_pc w p s) ≡ₚ
  option_list (held_id (mkThread (stop_requested j) p)) ++ held s.
Proof. intros Hj. unfold held, set_pc; simpl. by apply (omap_alter_perm held_id). Qed.

Lemma held_spawn s : omap held_id (threads s ++ [mkThread false AtLoopHead]) = held s.
Proof. rewrite omap_app. simpl. by rewrite app_nil_r. Qed.

Lemma accounting_perm sch :
  handled (trace sch init) ++ held (final sch init) ≡ₚ dequeued (trace sch init).
Proof.
  apply (run_invariant init (fun tr s => handled tr ++ held s ≡ₚ dequeued tr)); [done|].
  intros tr s o IH.
  exec_cases o s; rewrite dequeued_snoc, handled_snoc; simpl; rewrite ?app_nil_r;
    try exact IH;
    try (rename select (threads _ !! _ = Some _) into Hj;
         rename select (pc _ = _) into Hpc;
         pose proof (held_set_pc w _ Exited _ Hj) as Ke;
         pose proof (held_set_pc w _ Woken _ Hj) as Kw;
         pose proof (held_set_pc w _ AtLoopHead _ Hj) as Kh;
         pose proof (fun z => held_set_pc w _ (Holding z) _ Hj) as Kd;
         unfold held_id in Ke, Kw, Kh, Kd; rewrite Hpc in Ke, Kw, Kh, Kd;
         simpl in Ke, Kw, Kh, Kd).
  - by rewrite <- IH, <- Ke.
  - rewrite <- IH. f_equiv. exact Kw.
  - rewrite <- IH. f_equiv. exact Ke.
  - rewrite <- IH, <- app_assoc. f_equiv.
    etrans; [exact (Kd z)|]. by rewrite (comm (++)).
  - rewrite <- IH, <- app_assoc. f_equiv. simpl. exact Kh.
  - rewrite <- IH, <- app_assoc. f_equiv. simpl. exact Kh.
  - rewrite <- IH. f_equiv.
    transitivity (held (set_threads (threads s ++ [mkThread false AtLoopHead]) s));
      apply reflexive_eq; [by eapply held_alter|apply held_spawn].
  - rewrite <- IH. f_equiv.
    transitivity (held (set_threads (threads s ++ [mkThread false AtLoopHead]) s));
      apply reflexive_eq; [by eapply held_alter|apply held_spawn].
  - rewrite <- IH. f_equiv. apply reflexive_eq, held_spawn.
  - rewrite <- IH. f_equiv. apply reflexive_eq. by eapply held_alter.
Qed.

(** X1: with any number of worker threads, whatever the interleaving:
    the ids are popped in the order in which they were pushed; and the ids
    the workers have dealt with, those they hold and those still queued
    are, counted with multiplicity, the ids submitted: no id is lost and
    none is handed to two workers. *)
Theorem no_task_lost_or_duplicated (sch : list op) :
  let tr := trace sch init in
  let s := final sch init in
  dequeued tr ++ tasks s = submitted tr /\
  handled tr ++ held s ≡ₚ dequeued tr /\
  handled tr ++ held s ++ tasks s ≡ₚ submitted tr.
Proof.
  cbv zeta. destruct (fifo_accounting sch) as [Hq _].
  pose proof (accounting_perm sch) as Hp.
  split; [done|]. split; [done|]. by rewrite app_assoc, Hp, Hq.
Qed.

Lemma submitted_NoDup sch :
  Z.of_nat (length (submitted (trace sch init))) <= 4294967296 ->
  NoDup (submitted (trace sch init)).
Proof.
  intros Hlen. destruct (submitted_ids sch) as [_ Hids].
  apply NoDup_alt. intros i j id Hi Hj.
  pose proof (lookup_lt_Some _ _ _ Hi). pose proof (lookup_lt_Some _ _ _ Hj).
  apply Hids in Hi, Hj. subst id.
  apply to_int_eq_iff, Z.mod_divide in Hj as [q Hq]; lia.
Qed.

(** X2: as long as no more than 2^32 tasks have been submitted,
    [execute()] is called at most once for each id, by whichever worker,
    and an id whose task has been executed is neither held nor queued any
    more. *)
Theorem execute_at_most_once (sch : list op) :
  let tr := trace sch init in
  let s := final sch init in
  Z.of_nat (length (submitted tr)) <= 4294967296 ->
  NoDup (executed tr) /\
  forall id, id ∈ executed tr -> (id ∉ held s) /\ (id ∉ tasks s).
Proof.
  cbv zeta. intros Hlen.
  pose proof (submitted_NoDup sch Hlen) as Hnd.
  pose proof (accounting_perm sch) as Hp.
  destruct (fifo_accounting sch) as [Hq _].
  rewrite <- Hq, <- Hp, <- app_assoc in Hnd.
  apply NoDup_app in Hnd as (Hh & Hdis & Hrest).
  pose proof (executed_sublist (trace sch init)) as Hsub. split.
  - exact (sublist_NoDup _ _ Hh Hsub).
  - intros id Hid. assert (Hin : id ∈ handled (trace sch init)) by (by eapply elem_of_sublist).
    apply Hdis in Hin. by apply not_elem_of_app in Hin.
Qed.

Lemma execute_at_most_once_witness :
  NoDup (executed (trace sch_fifo init)).
Proof. apply (execute_at_most_once sch_fifo). vm_compute. discriminate. Defined.

(** X3: as long as no more than 2^31 tasks have been submitted, the
    lookup [results.find(task_id)] of a worker never fails, also with
    retrievals going on at the same time: the id a worker holds is in the
    registry, with a task that has not been executed, and the worker's
    next step executes that task (or is ended by its exception), whether
    stop has been requested or not. *)
Theorem worker_finds_task (sch : list op) :
  let tr := trace sch init in
  let s := final sch init in
  Z.of_nat (length (submitted tr)) <= 2147483648 ->
  (forall w id, EvWorker w (Missing id) ∉ tr) /\
  (forall w id, holds s w id ->
     exists t, results s !! id = Some t /\ ready t = false) /\
  (terminated s = false ->
   forall w id, holds s w id ->
     exists o, fst (exec (OpWorker w) s) = EvWorker w o /\
               (o = Executed id \/ exists e, o = Aborted id e)).
Proof.
  intros tr s Hlen. destruct (no_missing sch Hlen) as [(_ & Hh & _) Hm].
  fold tr s in Hh, Hm. split; [done|]. split.
  - intros w id H. by destruct (Hh w id H) as (_ & t & Ht & Hr); eauto.
  - intros Hterm w id H. destruct (Hh w id H) as (_ & t & Ht & _).
    destruct H as (th & Hth & Hpc).
    unfold exec, server_thread. rewrite Hterm, Hth, Hpc, Ht.
    destruct (execute t); simpl; eauto.
Qed.

Lemma worker_finds_task_witness :
  exists t, results (final sch_fifo init) !! 2 = Some t /\ ready t = false.
Proof.
  destruct (worker_finds_task sch_fifo) as (_ & H & _); [vm_compute; discriminate|].
  apply (H 0%nat 2). exists (mkThread false (Holding 2)). split; reflexivity.
Defined.

(** X4: in every state of every run, at most one worker is between its
    wake-up and its pop; [mut] is owned exactly then, and the queue is not
    empty then, so that the test of line 85 succeeds and the lock is
    released: no worker ever comes back to [lock.lock()] owning the
    lock. *)
Theorem lock_discipline (sch : list op) :
  let s := final sch init in
  (forall w w', woken s w -> woken s w' -> w = w') /\
  (forall w, woken s w -> mut s = true /\ tasks s <> []) /\
  (mut s = true -> exists w, woken s w) /\
  (forall w, fst (exec (OpWorker w) s) <> EvWorker w LockError).
Proof.
  intros s. destruct (lock_ok_final sch) as (Hm & Hu & Hq). fold s in Hm, Hu, Hq.
  split; [done|]. split; [|split].
  - intros w Hw. split; [apply Hm; eauto|by eapply Hq].
  - apply Hm.
  - intros w. apply no_lock_error.
Qed.

(** A result slot is ready only when a worker has executed the task. *)
Lemma ready_executed sch id t :
  results (final sch init) !! id = Some t -> ready t = true ->
  id ∈ executed (trace sch init).
Proof.
  revert id t. apply (run_invariant init (fun tr s => forall id t,
    results s !! id = Some t -> ready t = true -> id ∈ executed tr)).
  - intros id t H. simpl in H. by rewrite lookup_empty in H.
  - intros tr s o IH id' t'.
    exec_cases o s; rewrite executed_snoc, elem_of_app; simpl;
      try (intros; left; by eauto).
    + destruct (decide (nextid s = id')) as [->|Hne].
      * rewrite lookup_insert_eq. by intros [= <-].
      * rewrite lookup_insert_ne by done. intros; left; by eauto.
    + destruct (decide (task_id = id')) as [->|Hne].
      * by rewrite lookup_delete_eq.
      * rewrite lookup_delete_ne by done. intros; left; by eauto.
    + destruct (decide (task_id = id')) as [->|Hne].
      * intros _ _. right. by left.
      * rewrite lookup_insert_ne by done. intros; left; by eauto.
Qed.

(** X5: [request_result] never returns a value for an id before a worker
    has executed a task under that id (and the id has been issued by
    [add_task]). *)
Theorem no_result_before_execute (sch : list op) (T : ctype) (id : Z) (v : value) :
  fst (request_result T id (final sch init)) = Ok v ->
  id ∈ executed (trace sch init) /\ id ∈ submitted (trace sch init).
Proof.
  intros Hv.
  destruct (request_result T id (final sch init)) as [r s'] eqn:E.
  simpl in Hv. subst r.
  apply request_result_ok in E as (_ & t & Ht & Hr & _). split.
  - by eapply ready_executed.
  - destruct (decide (id ∈ submitted (trace sch init))) as [|Hn]; [done|].
    assert (Hreg : registered (trace sch init) id = false).
    { apply registered_false. by left. }
    pose proof (proj1 (registry_registered sch id) (mk_is_Some _ _ Ht)). congruence.
Qed.

Lemma no_result_before_execute_witness :
  0 ∈ executed (trace sch_ready init).
Proof. apply (no_result_before_execute sch_ready Cint 0 (Vint 49)). reflexivity. Defined.

(** X6: an entry of the registry stays there until a [request_result]
    for its id returns: nothing else removes it, neither the worker nor
    [stop()] nor a retrieval that blocks or throws. *)
Theorem entry_kept_until_retrieved (s0 : State) (sch : list op) (id : Z) :
  is_Some (results s0 !! id) ->
  (forall T v, EvRequest T id (Ok v) ∉ trace sch s0) ->
  is_Some (results (final sch s0) !! id).
Proof.
  intros H0.
  apply (run_invariant s0 (fun tr s =>
    (forall T v, EvRequest T id (Ok v) ∉ tr) -> is_Some (results s !! id))); [done|].
  intros tr s o IH Hno.
  assert (Hs : is_Some (results s !! id)).
  { apply IH. intros T v H. apply (Hno T v). apply elem_of_app. by left. }
  pose proof (exec_registry o s id) as He.
  destruct (exec o s) as [e s'] eqn:E; simpl in *.
  destruct (touch e id) as [[]|] eqn:Ht; [done| |by apply He].
  apply touch_retrieved in Ht as (T & v & ->).
  exfalso. apply (Hno T v). apply elem_of_app. right. by left.
Qed.

Lemma entry_kept_until_retrieved_witness :
  is_Some (results (final [OpStop; OpRequestResult Cint 1; OpRequestResult Cbool 0;
                           OpWorker 0%nat] s_ready) !! 1).
Proof.
  apply entry_kept_until_retrieved.
  - eexists; reflexivity.
  - intros T v. vm_compute. intros H.
    repeat (apply elem_of_cons in H as [H|H]; [discriminate|]).
    by apply elem_of_nil in H.
Defined.

(** ** Tasks left in the queue *)

(** A step that does not execute the task of [id] leaves its entry, if
    not ready, in the registry and not ready. *)
Lemma unready_step o s id :
  (exists t, results s !! id = Some t /\ ready t = false) ->
  (forall w, fst (exec o s) <> EvWorker w (Executed id)) ->
  exists t, results (snd (exec o s)) !! id = Some t /\ ready t = false.
Proof.
  intros (t0 & Ht0 & Hr0) Hne. revert Hne.
  exec_cases o s; intros Hne; eauto.
  - destruct (decide (nextid s = id)) as [->|Hd].
    + rewrite lookup_insert_eq. by eexists.
    + rewrite lookup_insert_ne by done. eauto.
  - destruct (decide (task_id = id)) as [->|Hd]; [congruence|].
    rewrite lookup_delete_ne by done. eauto.
  - destruct (decide (task_id = id)) as [->|Hd]; [by destruct (Hne w)|].
    rewrite lookup_insert_ne by done. eauto.
Qed.

(** X7: the tasks queued when [stop()] is called with [mut] free are
    abandoned for good: as long as the server is not started again,
    nothing is popped any more, the queue only grows at its back, the
    task of such an id is never executed, and [request_result] for it
    blocks in every later state. *)
Theorem abandoned_tasks_block (sch0 sch : list op) (id : Z) :
  let s0 := final sch0 init in
  let s := snd (stop s0) in
  Z.of_nat (length (submitted (trace sch0 init))) <= 2147483648 ->
  mut s0 = false -> id ∈ tasks s0 -> no_start sch = true ->
  dequeued (trace sch s) = [] /\
  tasks (final sch s) = tasks s0 ++ submitted (trace sch s) /\
  (id ∉ executed (trace sch s)) /\
  forall T, request_result T id (final sch s) = (Blocks, final sch s).
Proof.
  intros s0 s Hlen Hfree Hid Hsch%no_start_Forall.
  pose proof (all_stopping_stop sch0) as Hstop. fold s0 s in Hstop.
  pose proof (lock_ok_final sch0) as Hlock. fold s0 in Hlock.
  destruct (no_missing sch0 Hlen) as [(Hq & _ & _ & Hhq & _) _]. fold s0 in Hq, Hhq.
  assert (Hpc : forall w p, at_pc s w p -> at_pc s0 w p).
  { intros w p. apply (at_pc_stop s0). }
  assert (Hts : tasks s = tasks s0) by (subst s; unfold stop; by destruct (server_t s0)).
  assert (Hrs : results s = results s0) by (subst s; unfold stop; by destruct (server_t s0)).
  assert (Hnow : forall w w', woken s w -> woken s w' -> w = w').
  { intros w w' H1%Hpc. by apply lock_ok_free in H1. }
  (* nothing is popped, and the task of [id] is not executed *)
  assert (Hrun : forall sch', Forall (fun o => o <> OpStart) sch' ->
            dequeued (trace sch' s) = [] /\
            tasks (final sch' s) = tasks s0 ++ submitted (trace sch' s) /\
            forall w, EvWorker w (Executed id) ∉ trace sch' s).
  { intros sch' Hsch'.
    destruct (stopping_run s sch' Hstop Hnow Hsch') as (_ & _ & [_ Hw] & Hqq & _ & Hex).
    assert (Hnil : dequeued (trace sch' s) = []).
    { destruct (dequeued (trace sch' s)) eqn:E; [done|].
      destruct Hw as [w Hw%Hpc]; [done|]. by apply lock_ok_free in Hw. }
    rewrite Hnil in Hqq, Hex. simpl in Hqq. rewrite Hts in Hqq.
    split; [done|]. split; [done|].
    intros w Hin. apply Hex in Hin as [Hin%Hpc|Hin]; [|by apply elem_of_nil in Hin].
    by apply Hhq in Hin. }
  assert (Hun : exists t, results (final sch s) !! id = Some t /\ ready t = false).
  { clear Hnow. induction sch as [|o sch IH] using rev_ind.
    - change (final [] s) with s. rewrite Hrs. by destruct (Hq id Hid) as (_ & t & ? & ?); eauto.
    - apply Forall_app in Hsch as [Hsch Ho].
      rewrite final_snoc. apply unready_step; [by apply IH|].
      intros w He. destruct (Hrun (sch ++ [o])) as (_ & _ & Hno).
      { apply Forall_app. by split. }
      apply (Hno w). rewrite trace_snoc, He. apply elem_of_app. right. by left. }
  destruct (Hrun sch Hsch) as (Hnil & Htasks & Hno).
  split; [done|]. split; [done|]. split.
  - unfold executed. rewrite list_elem_of_omap. intros (e & He & Hid').
    destruct e as [| | |w o| | |]; try done. destruct o; try done.
    simplify_eq. by apply (Hno w).
  - intros T. destruct Hun as (t & Ht & Hr).
    unfold request_result, get_result. by rewrite Ht, Hr.
Qed.

Lemma abandoned_tasks_block_witness :
  fst (request_result Cint 0
         (final [OpWorker 0%nat; OpAddTask f_sq 6; OpRequestResult Cint 0; OpWorker 0%nat]
            (snd (stop (final [OpStart; OpAddTask f_sq 3; OpAddTask f_sq 4] init))))) = Blocks.
Proof.
  destruct (abandoned_tasks_block [OpStart; OpAddTask f_sq 3; OpAddTask f_sq 4]
              [OpWorker 0%nat; OpAddTask f_sq 6; OpRequestResult Cint 0; OpWorker 0%nat] 0)
    as (_ & _ & _ & H).
  - vm_compute. discriminate.
  - reflexivity.
  - by left.
  - reflexivity.
  - by rewrite H.
Defined.

(** ** Stopping twice, and starting again *)

Lemma stop_twice s : stop (snd (stop s)) = stop s.
Proof.
  unfold stop. destruct (server_t s) as [w|] eqn:E; simpl; rewrite E; [|done].
  f_equal. unfold request_stop, set_threads; simpl. f_equal.
  rewrite list_alter_alter_eq. by apply list_alter_ext.
Qed.

(** X8: [Server::stop()] returns at once, without an error, whatever the
    state; a second call changes nothing more, and a call before the
    first [start()] changes nothing at all.  It touches neither the
    queue nor the registry nor the lock, and it moves no thread: it does
    not wait for the worker. *)
Theorem stop_idempotent (s : State) :
  fst (stop s) = Ok tt /\
  stop (snd (stop s)) = stop s /\
  (server_t s = None -> snd (stop s) = s) /\
  tasks (snd (stop s)) = tasks s /\
  results (snd (stop s)) = results s /\
  mut (snd (stop s)) = mut s /\
  forall w p, at_pc (snd (stop s)) w p <-> at_pc s w p.
Proof.
  split; [unfold stop; by destruct (server_t s)|].
  split; [apply stop_twice|].
  split; [intros E; unfold stop; by rewrite E|].
  repeat split; try (unfold stop; by destruct (server_t s)); by apply at_pc_stop.
Qed.

Lemma completed_insert s id t v id' r :
  results s !! id = Some t -> func t (args t) = Returned v ->
  r = <[id := mkTaskWrapper (Args t) (func t) (args t) (Some v) true]> (results s) ->
  (id' = id \/ exists t' v', results s !! id' = Some t' /\ ready t' = true /\
                               result t' = Some v' /\ func t' (args t') = Returned v') ->
  exists t' v', r !! id' = Some t' /\ ready t' = true /\
                result t' = Some v' /\ func t' (args t') = Returned v'.
Proof.
  intros Ht Hf -> H. destruct (decide (id' = id)) as [->|Hne].
  - rewrite lookup_insert_eq. by eexists _, v.
  - rewrite lookup_insert_ne by done. by destruct H.
Qed.

(** A worker at the head of its loop, with the lock free, serves the
    whole queue. *)
Lemma serve_run w q : forall s,
  terminated s = false -> mut s = false ->
  threads s !! w = Some (mkThread false AtLoopHead) ->
  tasks s = q -> (forall id, id ∈ q -> runnable s id) ->
  let sch := replicate (3 * length q) (OpWorker w) in
  let s' := final sch s in
  trace sch s = serve_events w q /\
  terminated s' = false /\ mut s' = false /\
  threads s' !! w = Some (mkThread false AtLoopHead) /\
  tasks s' = [] /\
  (forall id, id ∈ q \/ completed s id -> completed s' id) /\
  nextid s' = nextid s.
Proof.
  induction q as [|id q IH]; intros s Hterm Hmut Hth Htasks Hrun sch s'.
  - subst sch s'. simpl. repeat split; try done.
    intros id [H|H]; [by apply elem_of_nil in H|done].
  - destruct (Hrun id) as (t & v & Ht & Hf); [by left|].
    destruct (serve_step w id q s t v) as (s1 & Hrun1 & Hterm1 & Hmut1 & Hth1 & Htasks1
      & Hres1 & Hnext1 & _); [done..|].
    assert (Hkeep : forall id', id' = id \/ completed s id' -> completed s1 id').
    { intros id' H. by eapply completed_insert. }
    assert (Hrun' : forall id', id' ∈ q -> runnable s1 id').
    { intros id' Hid'. unfold runnable. rewrite Hres1.
      destruct (decide (id' = id)) as [->|Hne].
      - rewrite lookup_insert_eq. by eexists _, v.
      - rewrite lookup_insert_ne by done. apply Hrun. by right. }
    destruct (IH s1 Hterm1 Hmut1 Hth1 Htasks1 Hrun') as (Htr & ? & ? & ? & ? & Hc & Hn).
    assert (Esch : sch = [OpWorker w; OpWorker w; OpWorker w]
                         ++ replicate (3 * length q) (OpWorker w)).
    { subst sch. simpl length. replace (3 * S (length q))%nat with (3 + 3 * length q)%nat by lia.
      by rewrite replicate_add. }
    destruct (run_cons_app _ (replicate (3 * length q) (OpWorker w)) _ _ _ Hrun1) as [Et Ef].
    subst s'. rewrite Esch, Et, Ef, Htr.
    split; [done|]. repeat split; try done; [|congruence].
    intros id' [[->|Hin]%elem_of_cons|Hd]; apply Hc; auto.
Qed.

(** X10: the server's worker, when it is the only thread there is and
    has not been asked to stop, serves the whole queue, in order: with
    the lock free and tasks whose callables return, three steps per
    queued id take each id off the queue and execute its task, after
    which the queue is empty, every task is completed and the worker
    waits. *)
Theorem worker_serves_queue (sch0 : list op) :
  let s := final sch0 init in
  terminated s = false -> mut s = false ->
  threads s = [mkThread false AtLoopHead] ->
  (forall id, id ∈ tasks s -> runnable s id) ->
  let sch := replicate (3 * length (tasks s)) (OpWorker 0%nat) in
  trace sch s = serve_events 0%nat (tasks s) /\
  tasks (final sch s) = [] /\
  (forall id, id ∈ tasks s -> completed (final sch s) id) /\
  exec (OpWorker 0%nat) (final sch s) = (EvWorker 0%nat Idle, final sch s).
Proof.
  intros s Hterm Hmut Hth Hrun sch.
  assert (Hth0 : threads s !! 0%nat = Some (mkThread false AtLoopHead)) by (by rewrite Hth).
  destruct (serve_run 0%nat (tasks s) s Hterm Hmut Hth0 eq_refl Hrun)
    as (Htr & Hterm' & Hmut' & Hth' & Htasks' & Hc & _).
  fold sch in Htr, Hterm', Hmut', Hth', Htasks', Hc.
  split; [done|]. split; [done|]. split; [by auto|].
  unfold exec, server_thread. by rewrite Hterm', Hth', Htasks'.
Qed.

Lemma worker_serves_queue_witness :
  trace (replicate 6 (OpWorker 0%nat)) (final [OpStart; OpAddTask f_sq 3; OpAddTask f_sq 4] init) =
  [EvWorker 0%nat Woke; EvWorker 0%nat (Dequeued 0); EvWorker 0%nat (Executed 0);
   EvWorker 0%nat Woke; EvWorker 0%nat (Dequeued 1); EvWorker 0%nat (Executed 1)].
Proof.
  destruct (worker_serves_queue [OpStart; OpAddTask f_sq 3; OpAddTask f_sq 4])
    as [H _]; [reflexivity..| |exact H].
  intros id Hid. unfold runnable.
  apply elem_of_cons in Hid as [->|Hid]; [by eexists _, _|].
  apply elem_of_cons in Hid as [->|Hid]; [by eexists _, _|].
  by apply elem_of_nil in Hid.
Defined.

(** A call of [start()] that has no thread to wait for returns at once;
    the thread it has spawned is at the head of its loop. *)
Lemma start_returns sch0 :
  let s0 := final sch0 init in
  joining s0 = None ->
  (forall old, server_t s0 = Some old -> at_pc s0 old Exited) ->
  fst (start s0) = Ok tt /\
  threads (snd (start s0)) !! length (threads s0) = Some (mkThread false AtLoopHead) /\
  tasks (snd (start s0)) = tasks s0 /\ results (snd (start s0)) = results s0 /\
  terminated (snd (start s0)) = terminated s0 /\ mut (snd (start s0)) = mut s0.
Proof.
  intros s0 Hnone Hold. destruct (threads_ok_final sch0) as [Hs _]. fold s0 in Hs.
  unfold start. rewrite Hnone. destruct (server_t s0) as [old|] eqn:Eold.
  - set (s2 := set_server_t (Some (length (threads s0)))
                 (request_stop old (set_threads
                    (threads s0 ++ [mkThread false AtLoopHead]) s0))).
    assert (Hfin : finished old s2 = true).
    { rewrite finished_at_pc by (simpl; rewrite length_alter, length_app; simpl; lia).
      rewrite (at_pc_same (request_stop old (set_threads
        (threads s0 ++ [mkThread false AtLoopHead]) s0)) s2) by done.
      rewrite at_pc_request_stop.
      rewrite (at_pc_spawn s0) by done. by apply Hold. }
    rewrite Hfin. simpl. split; [done|]. split; [|done].
    rewrite list_lookup_alter_ne by lia.
    by rewrite lookup_app_r, Nat.sub_diag by lia.
  - simpl. split; [done|]. split; [|done].
    by rewrite lookup_app_r, Nat.sub_diag by lia.
Qed.

(** X11: what is in the queue when [start()] is called is served by the
    new worker, be it tasks submitted before the first [start()] or tasks
    left behind by [stop()]: in every state a run can reach in which the
    server has no thread, or one that has left [server_thread], with the
    lock free and tasks whose callables return, [start()] returns at once
    and three steps of the new thread per queued id execute all the
    queued tasks, in order. *)
Theorem restart_serves_queue (sch0 : list op) :
  let s0 := final sch0 init in
  let w := length (threads s0) in
  terminated s0 = false -> mut s0 = false -> joining s0 = None ->
  (forall old, server_t s0 = Some old -> at_pc s0 old Exited) ->
  (forall id, id ∈ tasks s0 -> runnable s0 id) ->
  let sch := OpStart :: replicate (3 * length (tasks s0)) (OpWorker w) in
  trace sch s0 = EvStart (Ok tt) :: serve_events w (tasks s0) /\
  tasks (final sch s0) = [] /\
  (forall id, id ∈ tasks s0 -> completed (final sch s0) id).
Proof.
  intros s0 w Hterm Hmut Hnone Hold Hrun sch.
  destruct (start_returns sch0 Hnone Hold) as (Hok & Hth & Et & Er & Ete & Em).
  fold s0 w in Hok, Hth, Et, Er, Ete, Em.
  assert (E1 : run [OpStart] s0 = ([EvStart (Ok tt)], snd (start s0))).
  { unfold run, exec. rewrite Hterm. destruct (start s0) as [r s']. simpl in *. by subst r. }
  destruct (serve_run w (tasks s0) (snd (start s0))) as (Htr & _ & _ & _ & Htasks' & Hc & _);
    [congruence..|done|done| |].
  { intros id Hid. unfold runnable. rewrite Er. by apply Hrun. }
  destruct (run_cons_app [OpStart] (replicate (3 * length (tasks s0)) (OpWorker w)) _ _ _ E1)
    as [Etr Ef].
  change sch with ([OpStart] ++ replicate (3 * length (tasks s0)) (OpWorker w)).
  rewrite Etr, Ef, Htr. split; [done|]. split; [done|]. by auto.
Qed.

Lemma restart_serves_queue_witness :
  trace (OpStart :: replicate 3 (OpWorker 1%nat))
        (final [OpStart; OpAddTask f_sq 3; OpStop; OpWorker 0%nat] init) =
  [EvStart (Ok tt); EvWorker 1%nat Woke; EvWorker 1%nat (Dequeued 0);
   EvWorker 1%nat (Executed 0)].
Proof.
  destruct (restart_serves_queue [OpStart; OpAddTask f_sq 3; OpStop; OpWorker 0%nat])
    as [H _]; [reflexivity..| | |exact H].
  - intros old [= <-]. exists (mkThread true Exited). split; reflexivity.
  - intros id Hid. unfold runnable.
    apply elem_of_cons in Hid as [->|Hid]; [by eexists _, _|].
    by apply elem_of_nil in Hid.
Defined.

(** * The matrix-vector product: proofs *)

(** ** Conversions and loops *)

Lemma to_size_t_id z : 0 <= z < 18446744073709551616 -> to_size_t z = z.
Proof. intros H. unfold to_size_t. by apply Z.mod_small. Qed.

Lemma to_ptrdiff_id z :
  -9223372036854775808 <= z < 9223372036854775808 -> to_ptrdiff z = z.
Proof. intros H. unfold to_ptrdiff. rewrite Z.mod_small; lia. Qed.

Lemma to_int_to_size_t z : in_int z -> to_int (to_size_t z) = z.
Proof.
  unfold in_int, INT_MIN, INT_MAX. intros H.
  destruct (decide (0 <= z)) as [Hz|Hz].
  - rewrite to_size_t_id by lia. apply to_int_id. unfold in_int, INT_MIN, INT_MAX. lia.
  - unfold to_size_t.
    replace (z mod 18446744073709551616) with (z + 18446744073709551616).
    + unfold to_int.
      replace (z + 18446744073709551616 + 2147483648)
        with (z + 2147483648 + 4294967296 * 4294967296) by lia.
      rewrite Z_mod_plus_full, Z.mod_small; lia.
    + apply Z.mod_unique with (-1); lia.
Qed.

Lemma int_result_Some z : in_int z -> int_result z = Some z.
Proof. intros H. unfold int_result. by rewrite decide_True. Qed.

(** The loop [for (int i = i0; i < m; i++)], [m] a [size_t] that fits in
    an [int]: the body runs for [i0], ..., [m - 1]. *)
Lemma for_int_lt_seq {S : Type} (body : Z -> S -> run_result S) (m : Z) :
  m <= INT_MAX ->
  forall (fuel : nat) (i : Z) (s : S),
    0 <= i <= m -> fuel = Z.to_nat (m - i) ->
    for_int fuel (fun i => to_size_t i <? m) body i s = seq_run body (seqZ i (m - i)) s.
Proof.
  unfold INT_MAX. intros Hm fuel.
  induction fuel as [|fuel IH]; intros i s Hi Hfuel; simpl.
  - assert (i = m) as -> by lia.
    rewrite to_size_t_id by lia. rewrite Z.ltb_irrefl.
    by rewrite seqZ_nil by lia.
  - assert (i < m) by lia.
    rewrite to_size_t_id by lia.
    rewrite (proj2 (Z.ltb_lt i m)) by done.
    rewrite seqZ_cons by lia. simpl.
    destruct (body i s) as [s'| |]; try done.
    rewrite decide_False by (unfold INT_MAX; lia).
    rewrite IH by lia. do 2 f_equal; lia.
Qed.

(** The loop [for (int i = lb; i <= ub; i++)] with [ub] below [INT_MAX]:
    the body runs for [lb], ..., [ub]. *)
Lemma for_int_le_seq {S : Type} (body : Z -> S -> run_result S) (ub : Z) :
  ub < INT_MAX ->
  forall (fuel : nat) (i : Z) (s : S),
    fuel = Z.to_nat (ub + 1 - i) ->
    for_int fuel (fun i => i <=? ub) body i s = seq_run body (seqZ i (ub + 1 - i)) s.
Proof.
  intros Hub fuel.
  induction fuel as [|fuel IH]; intros i s Hfuel; simpl.
  - rewrite (proj2 (Z.leb_gt i ub)) by lia.
    by rewrite seqZ_nil by lia.
  - rewrite (proj2 (Z.leb_le i ub)) by lia.
    rewrite seqZ_cons by lia. simpl.
    destruct (body i s) as [s'| |]; try done.
    rewrite decide_False by lia.
    rewrite IH by lia. do 2 f_equal; lia.
Qed.

(** The fuel handed to the loops below always suffices: a loop
    [for (int i = i0; i < m; i++)] started at a non-negative [i0] ends
    within [m - i0] rounds, by its test or by the overflow of [i++]. *)
Lemma for_int_lt_fuel {S : Type} (body : Z -> S -> run_result S) (m : Z) :
  (forall i s, body i s <> OutOfFuel) ->
  forall (fuel : nat) (i : Z) (s : S),
    0 <= i <= INT_MAX -> (Z.to_nat (m - i) <= fuel)%nat ->
    for_int fuel (fun i => to_size_t i <? m) body i s <> OutOfFuel.
Proof.
  unfold INT_MAX. intros Hbody fuel.
  induction fuel as [|fuel IH]; intros i s Hi Hfuel; simpl.
  - rewrite to_size_t_id by lia. rewrite (proj2 (Z.ltb_ge i m)) by lia. done.
  - destruct (to_size_t i <? m); [|done].
    destruct (body i s) as [s'| |] eqn:E; [|done|by apply Hbody in E].
    case_decide as Hmax; [done|]. unfold INT_MAX in Hmax. apply IH; lia.
Qed.

(** The same for [for (int i = lb; i <= ub; i++)] and [ub + 1 - lb]
    rounds. *)
Lemma for_int_le_fuel {S : Type} (body : Z -> S -> run_result S) (ub : Z) :
  (forall i s, body i s <> OutOfFuel) ->
  forall (fuel : nat) (i : Z) (s : S),
    (Z.to_nat (ub + 1 - i) <= fuel)%nat ->
    for_int fuel (fun i => i <=? ub) body i s <> OutOfFuel.
Proof.
  intros Hbody fuel.
  induction fuel as [|fuel IH]; intros i s Hfuel; simpl.
  - rewrite (proj2 (Z.leb_gt i ub)) by lia. done.
  - destruct (i <=? ub); [|done].
    destruct (body i s) as [s'| |] eqn:E; [|done|by apply Hbody in E].
    case_decide; [done|]. apply IH; lia.
Qed.

Lemma seq_run_fuel {S : Type} (body : Z -> S -> run_result S) l s :
  (forall i s, body i s <> OutOfFuel) -> seq_run body l s <> OutOfFuel.
Proof.
  intros Hbody. revert s. induction l as [|i l IH]; intros s; simpl; [done|].
  destruct (body i s) as [s'| |] eqn:E; [apply IH|done|by apply Hbody in E].
Qed.

Lemma seq_run_app {S : Type} (body : Z -> S -> run_result S) l1 l2 s :
  seq_run body (l1 ++ l2) s =
  match seq_run body l1 s with
  | Done s' => seq_run body l2 s'
  | r => r
  end.
Proof.
  revert s. induction l1 as [|i l1 IH]; intros s; simpl; [done|].
  destruct (body i s); auto.
Qed.

Lemma seq_run_concat {S : Type} (body : Z -> S -> run_result S) (g : Z -> list Z) l s :
  seq_run (fun t s => seq_run body (g t) s) l s = seq_run body (concat (g <$> l)) s.
Proof.
  revert s. induction l as [|t l IH]; intros s; simpl; [done|].
  rewrite seq_run_app. destruct (seq_run body (g t) s); auto.
Qed.

Lemma seq_run_ext {S : Type} (body1 body2 : Z -> S -> run_result S) l s :
  (forall i s, i ∈ l -> body1 i s = body2 i s) ->
  seq_run body1 l s = seq_run body2 l s.
Proof.
  revert s. induction l as [|i l IH]; intros s H; simpl; [done|].
  rewrite H by left. destruct (body2 i s); try done.
  apply IH. intros j s' Hj. apply H. by right.
Qed.

(** A loop whose body keeps an invariant, and succeeds under it, succeeds. *)
Lemma seq_run_Done {S : Type} (body : Z -> S -> run_result S) (P : S -> Prop) l s :
  (forall i s, i ∈ l -> P s -> exists s', body i s = Done s' /\ P s') ->
  P s -> exists s', seq_run body l s = Done s' /\ P s'.
Proof.
  revert s. induction l as [|i l IH]; intros s H Hs; simpl; [by eauto|].
  destruct (H i s) as (s' & -> & Hs'); [by left|done|].
  apply IH; [|done]. intros j s'' Hj. apply H. by right.
Qed.

(** ** The row ranges of the threads *)

(** The bounds within the range of [int]: thread [t] gets the rows from
    [t * (m / k)]; every thread but the last gets [m / k] rows, the last
    one gets the rest. *)
Lemma omp_bounds_spec m k t :
  1 <= m <= INT_MAX -> 1 <= k <= INT_MAX -> 0 <= t < k ->
  omp_bounds m k t =
  Some (t * (m / k), if decide (t = k - 1) then m - 1 else t * (m / k) + m / k - 1).
Proof.
  unfold INT_MAX. intros Hm Hk Ht.
  assert (Hq : 0 <= m / k) by (apply Z.div_pos; lia).
  assert (Hqk : k * (m / k) <= m) by (apply Z.mul_div_le; lia).
  assert (Hlb : 0 <= t * (m / k) <= m - m / k) by nia.
  unfold omp_bounds.
  rewrite to_size_t_id by lia. rewrite decide_False by lia.
  rewrite (to_int_id (m / k)) by (unfold in_int, INT_MIN, INT_MAX; lia).
  rewrite (int_result_Some (t * (m / k))) by (unfold in_int, INT_MIN, INT_MAX; lia).
  simpl. rewrite (int_result_Some (k - 1)) by (unfold in_int, INT_MIN, INT_MAX; lia).
  simpl. case_decide as Hlast.
  - rewrite to_int_to_size_t by (unfold in_int, INT_MIN, INT_MAX; lia). done.
  - rewrite (int_result_Some (t * (m / k) + m / k)) by (unfold in_int, INT_MIN, INT_MAX; lia).
    simpl. rewrite (int_result_Some (t * (m / k) + m / k - 1))
      by (unfold in_int, INT_MIN, INT_MAX; lia).
    simpl. rewrite to_int_to_size_t by (unfold in_int, INT_MIN, INT_MAX; lia). done.
Qed.

Lemma blocks_concat (q : Z) (j : nat) :
  0 <= q ->
  concat ((fun t => seqZ (t * q) q) <$> seqZ 0 (Z.of_nat j)) = seqZ 0 (Z.of_nat j * q).
Proof.
  intros Hq. induction j as [|j IH].
  - by rewrite !seqZ_nil by lia.
  - rewrite seqZ_S, fmap_app, concat_app, IH. simpl. rewrite app_nil_r.
    replace (Z.of_nat (S j) * q) with (Z.of_nat j * q + q) by lia.
    rewrite seqZ_app by lia. done.
Qed.

(** Taken in the order of the thread ids, the rows of the [k] threads are
    the rows 0, ..., [m - 1], each once. *)
Lemma rows_of_concat m k :
  1 <= m <= INT_MAX -> 1 <= k <= INT_MAX ->
  concat (rows_of m k <$> seqZ 0 k) = seqZ 0 m.
Proof.
  intros Hm Hk.
  assert (Hq : 0 <= m / k) by (apply Z.div_pos; lia).
  assert (Hqk : k * (m / k) <= m) by (apply Z.mul_div_le; lia).
  replace k with ((k - 1) + 1) at 2 by lia.
  rewrite seqZ_app by lia. rewrite fmap_app, concat_app.
  rewrite (list_fmap_ext (rows_of m k) (fun t => seqZ (t * (m / k)) (m / k))).
  - replace (k - 1) with (Z.of_nat (Z.to_nat (k - 1))) at 1 by lia.
    rewrite blocks_concat by done. rewrite Z2Nat.id by lia.
    assert (seqZ (0 + (k - 1)) 1 = [k - 1]) as ->.
    { rewrite seqZ_cons by lia. rewrite seqZ_nil by lia. by rewrite Z.add_0_l. }
    simpl. rewrite app_nil_r.
    unfold rows_of. rewrite omp_bounds_spec by lia.
    rewrite decide_True by lia.
    replace m with ((k - 1) * (m / k) + (m - (k - 1) * (m / k))) at 5 by lia.
    rewrite seqZ_app by nia. do 2 f_equal; lia.
  - intros i t Ht%list_elem_of_lookup_2%elem_of_seqZ.
    unfold rows_of. rewrite omp_bounds_spec by lia.
    rewrite decide_False by lia. f_equal. lia.
Qed.

Lemma in_range_spec m k t i :
  1 <= m <= INT_MAX -> 1 <= k <= INT_MAX -> 0 <= t < k ->
  in_range m k t i <->
  t * (m / k) <= i <= (if decide (t = k - 1) then m - 1 else t * (m / k) + m / k - 1).
Proof.
  intros Hm Hk Ht. unfold in_range. rewrite omp_bounds_spec by done. split.
  - by intros (lb & ub & [= <- <-] & H).
  - intros H. eauto.
Qed.

(** Every row belongs to the range of exactly one thread. *)
Lemma rows_partition m k i :
  1 <= m <= INT_MAX -> 1 <= k <= INT_MAX -> 0 <= i < m ->
  exists t, 0 <= t < k /\ in_range m k t i /\
            forall t', 0 <= t' < k -> in_range m k t' i -> t' = t.
Proof.
  intros Hm Hk Hi.
  assert (Hq : 0 <= m / k) by (apply Z.div_pos; lia).
  assert (Hqk : k * (m / k) <= m) by (apply Z.mul_div_le; lia).
  destruct (decide (m / k = 0 \/ (k - 1) * (m / k) <= i)) as [Hlast|Hmid].
  - exists (k - 1). split; [lia|]. split.
    + rewrite in_range_spec by lia. rewrite decide_True by done. nia.
    + intros t' Ht'. rewrite in_range_spec by lia. case_decide; [done|].
      intros [Hlo Hhi]. nia.
  - assert (0 < m / k) by lia. assert (i < (k - 1) * (m / k)) by lia.
    pose proof (Z.div_mod i (m / k) ltac:(lia)) as Hdm.
    pose proof (Z.mod_pos_bound i (m / k) ltac:(lia)) as Hmod.
    assert (Hd : 0 <= i / (m / k) < k - 1).
    { split; [apply Z.div_pos; lia|]. apply Z.div_lt_upper_bound; lia. }
    exists (i / (m / k)). split; [lia|]. split.
    + rewrite in_range_spec by lia. rewrite decide_False by lia. lia.
    + intros t' Ht'. rewrite in_range_spec by lia. case_decide.
      * subst. intros [Hlo Hhi]. lia.
      * intros [Hlo Hhi]. apply (Z.div_unique_pos i (m / k) t' (i - t' * (m / k))); lia.
Qed.

(** No range reaches outside the rows. *)
Lemma in_range_rows m k t i :
  1 <= m <= INT_MAX -> 1 <= k <= INT_MAX -> 0 <= t < k ->
  in_range m k t i -> 0 <= i < m.
Proof.
  intros Hm Hk Ht. rewrite in_range_spec by done.
  assert (Hq : 0 <= m / k) by (apply Z.div_pos; lia).
  assert (Hqk : k * (m / k) <= m) by (apply Z.mul_div_le; lia).
  case_decide; intros [H1 H2]; nia.
Qed.

Section MatVecFacts.
Context {F : Type} (zero : F) (add mul : F -> F -> F).

Lemma accumulate_fuel (a b : list F) (n i j : Z) (c : list F) :
  accumulate add mul a b n i j c <> OutOfFuel.
Proof. unfold accumulate. by repeat case_match. Qed.

Lemma row_body_fuel (a b : list F) (n i : Z) (c : list F) :
  row_body zero add mul a b n i c <> OutOfFuel.
Proof.
  unfold row_body. case_match; [|done].
  apply for_int_lt_fuel; [|unfold INT_MAX; lia|lia].
  intros j c'. apply accumulate_fuel.
Qed.

(** Neither function ever runs out of fuel: each either completes or
    meets undefined behaviour. *)
Lemma matrix_vector_product_fuel (a b c : list F) (m n : Z) :
  matrix_vector_product zero add mul a b c m n <> OutOfFuel.
Proof.
  unfold matrix_vector_product.
  apply for_int_lt_fuel; [|unfold INT_MAX; lia|lia].
  intros i c'. apply (row_body_fuel a b n i c').
Qed.

Lemma matrix_vector_product_omp_fuel (a b c : list F) (m n k t : Z) :
  matrix_vector_product_omp zero add mul a b c m n k t <> OutOfFuel.
Proof.
  unfold matrix_vector_product_omp.
  destruct (omp_bounds m k t) as [[lb ub]|]; [|done].
  apply for_int_le_fuel; [|lia].
  intros i c'. apply (row_body_fuel a b n i c').
Qed.

Lemma run_threads_fuel (a b c : list F) (m n k : Z) (order : list Z) :
  run_threads zero add mul a b c m n k order <> OutOfFuel.
Proof.
  apply seq_run_fuel. intros t c'. apply matrix_vector_product_omp_fuel.
Qed.

Lemma matrix_vector_product_rows (a b c : list F) (m n : Z) :
  0 <= m <= INT_MAX ->
  matrix_vector_product zero add mul a b c m n =
  seq_run (row_body zero add mul a b n) (seqZ 0 m) c.
Proof.
  intros Hm. unfold matrix_vector_product.
  rewrite (for_int_lt_seq _ m) by lia. by rewrite Z.sub_0_r.
Qed.

Lemma matrix_vector_product_omp_rows (a b c : list F) (m n k t : Z) :
  1 <= m <= INT_MAX -> 1 <= k <= INT_MAX -> 0 <= t < k ->
  matrix_vector_product_omp zero add mul a b c m n k t =
  seq_run (row_body zero add mul a b n) (rows_of m k t) c.
Proof.
  intros Hm Hk Ht. unfold matrix_vector_product_omp, rows_of.
  rewrite omp_bounds_spec by done.
  assert (Hq : 0 <= m / k) by (apply Z.div_pos; lia).
  assert (Hqk : k * (m / k) <= m) by (apply Z.mul_div_le; lia).
  apply for_int_le_seq; [|done].
  case_decide; nia.
Qed.

Lemma run_threads_rows (a b c : list F) (m n k : Z) (order : list Z) :
  1 <= m <= INT_MAX -> 1 <= k <= INT_MAX ->
  (forall t, t ∈ order -> 0 <= t < k) ->
  run_threads zero add mul a b c m n k order =
  seq_run (row_body zero add mul a b n) (concat (rows_of m k <$> order)) c.
Proof.
  intros Hm Hk Ho. unfold run_threads.
  rewrite <- seq_run_concat. apply seq_run_ext.
  intros t c' Ht. apply matrix_vector_product_omp_rows; auto.
Qed.

(** In the order of the thread ids, the calls perform the row updates of
    the serial function, in the same order. *)
Lemma run_parallel_serial (a b c : list F) (m n k : Z) :
  1 <= m <= INT_MAX -> 1 <= k <= INT_MAX ->
  run_parallel zero add mul a b c m n k = matrix_vector_product zero add mul a b c m n.
Proof.
  intros Hm Hk.
  rewrite matrix_vector_product_rows by lia.
  change (run_parallel zero add mul a b c m n k)
    with (run_threads zero add mul a b c m n k (seqZ 0 k)).
  rewrite run_threads_rows; [|done..|].
  - by rewrite rows_of_concat.
  - intros t Ht%elem_of_seqZ. lia.
Qed.
End MatVecFacts.

Section MatVecValues.
Context {F : Type} (zero : F) (add mul : F -> F -> F).
Context (a b : list F) (m n : Z).
Hypothesis Hm : 1 <= m <= INT_MAX.
Hypothesis Hn : 0 <= n <= INT_MAX.
Hypothesis Ha : Z.of_nat (length a) = m * n.
Hypothesis Hb : Z.of_nat (length b) = n.

Local Abbreviation term i j :=
  (mul (default zero (a !! Z.to_nat (i * n + j))) (default zero (b !! Z.to_nat j))).

Lemma accumulate_value (c : list F) (i j : Z) (acc : F) :
  Z.of_nat (length c) = m -> 0 <= i < m -> 0 <= j < n ->
  accumulate add mul a b n i j (<[Z.to_nat i := acc]> c) =
  Done (<[Z.to_nat i := add acc (term i j)]> c).
Proof using Hm Hn Ha Hb.
  unfold INT_MAX in *. intros Hc Hi Hj. unfold accumulate, load, store.
  assert (0 <= i * n + j < m * n) by nia.
  assert (m * n < 4611686018427387904) by nia.
  rewrite (to_ptrdiff_id i), (to_ptrdiff_id j) by lia.
  rewrite (to_size_t_id i), (to_size_t_id j) by lia.
  rewrite (to_size_t_id (i * n)) by nia.
  rewrite (to_size_t_id (i * n + j)), (to_ptrdiff_id (i * n + j)) by lia.
  rewrite length_insert. rewrite !decide_True by lia.
  rewrite list_lookup_insert_eq by lia.
  destruct (lookup_lt_is_Some_2 a (Z.to_nat (i * n + j))) as [x ->]; [lia|].
  destruct (lookup_lt_is_Some_2 b (Z.to_nat j)) as [y ->]; [lia|].
  simpl. rewrite decide_True by lia. by rewrite list_insert_insert_eq.
Qed.

Lemma accumulate_all (c : list F) (i : Z) (l : list Z) (acc : F) :
  Z.of_nat (length c) = m -> 0 <= i < m ->
  (forall j, j ∈ l -> 0 <= j < n) ->
  seq_run (fun j c => accumulate add mul a b n i j c) l (<[Z.to_nat i := acc]> c) =
  Done (<[Z.to_nat i := foldl (fun acc j => add acc (term i j)) acc l]> c).
Proof using Hm Hn Ha Hb.
  intros Hc Hi. revert acc. induction l as [|j l IH]; intros acc Hl; simpl; [done|].
  rewrite accumulate_value; [|done..|apply Hl; by left].
  apply IH. intros j' Hj'. apply Hl. by right.
Qed.

(** One pass of the loop over the rows puts the dot product of row [i]
    and [b] into [c[i]] and touches nothing else. *)
Lemma row_body_value (c : list F) (i : Z) :
  Z.of_nat (length c) = m -> 0 <= i < m ->
  row_body zero add mul a b n i c = Done (<[Z.to_nat i := dot zero add mul a b n i]> c).
Proof using Hm Hn Ha Hb.
  intros Hc Hi. unfold row_body, store. unfold INT_MAX in *.
  rewrite to_ptrdiff_id by lia. rewrite decide_True by lia.
  rewrite (for_int_lt_seq _ n) by (unfold INT_MAX; lia).
  rewrite Z.sub_0_r. rewrite accumulate_all; [done..|].
  intros j Hj%elem_of_seqZ. lia.
Qed.

Local Abbreviation set_rows := (set_rows zero add mul a b n).

Lemma length_set_rows c l : length (set_rows c l) = length c.
Proof.
  revert c. induction l as [|i l IH]; intros c; simpl; [done|].
  unfold set_rows in *. simpl. by rewrite IH, length_insert.
Qed.

Lemma rows_value (c : list F) (l : list Z) :
  Z.of_nat (length c) = m -> (forall i, i ∈ l -> 0 <= i < m) ->
  seq_run (row_body zero add mul a b n) l c = Done (set_rows c l).
Proof using Hm Hn Ha Hb.
  revert c. induction l as [|i l IH]; intros c Hc Hl; simpl; [done|].
  rewrite row_body_value; [|done|apply Hl; by left].
  apply IH; [by rewrite length_insert|].
  intros j Hj. apply Hl. by right.
Qed.

Lemma lookup_set_rows (c : list F) (l : list Z) (j : nat) :
  (j < length c)%nat -> (forall i, i ∈ l -> 0 <= i) ->
  set_rows c l !! j =
  if decide (Z.of_nat j ∈ l) then Some (dot zero add mul a b n (Z.of_nat j)) else c !! j.
Proof.
  revert c. induction l as [|i l IH]; intros c Hj Hl.
  - rewrite decide_False by apply not_elem_of_nil. done.
  - change (set_rows c (i :: l))
      with (set_rows (<[Z.to_nat i := dot zero add mul a b n i]> c) l).
    assert (0 <= i) by (apply Hl; by left).
    rewrite IH; [|by rewrite length_insert|intros i' Hi'; apply Hl; by right].
    destruct (decide (Z.of_nat j ∈ l)) as [Hin|Hin].
    + rewrite decide_True; [done|]. by right.
    + destruct (decide (Z.of_nat j = i)) as [<-|Hne].
      * rewrite decide_True by left. rewrite Nat2Z.id.
        by rewrite list_lookup_insert_eq.
      * rewrite decide_False.
        -- rewrite list_lookup_insert_ne; [done|]. lia.
        -- intros [?|?]%elem_of_cons; done.
Qed.

(** The rows updated, not the order of the updates, determine the
    result. *)
Lemma set_rows_same (c : list F) (l1 l2 : list Z) :
  (forall i, i ∈ l1 -> 0 <= i) -> (forall i, i ∈ l2 -> 0 <= i) ->
  (forall i, i ∈ l1 <-> i ∈ l2) ->
  set_rows c l1 = set_rows c l2.
Proof.
  intros H1 H2 H12. apply list_eq. intros j.
  destruct (decide (j < length c)%nat) as [Hj|Hj].
  - rewrite !lookup_set_rows by done.
    destruct (decide (Z.of_nat j ∈ l1)) as [Hin|Hin].
    + rewrite decide_True; [done|]. by apply H12.
    + rewrite decide_False; [done|]. by rewrite <- H12.
  - rewrite !lookup_ge_None_2; [done|rewrite length_set_rows; lia..].
Qed.
End MatVecValues.

Lemma elem_of_concat_fmap {A B : Type} (g : A -> list B) (l : list A) (x : B) :
  x ∈ concat (g <$> l) <-> exists t, t ∈ l /\ x ∈ g t.
Proof.
  induction l as [|t l IH]; simpl.
  - split; [by intros ?%elem_of_nil|by intros (? & ?%elem_of_nil & _)].
  - rewrite elem_of_app, IH. split.
    + intros [H|(t' & Ht' & H)]; [exists t; split; [by left|done]|].
      exists t'. split; [by right|done].
    + intros (t' & [->|Ht']%elem_of_cons & H); [by left|right; eauto].
Qed.

(** C10, as the claim states it, fails: the bounds are [int]s, so for
    [m] = 2^31 + 1 rows and one thread the range is [0 .. -2^31], which is
    empty: row 0 belongs to no thread. *)
Lemma omp_bounds_overflow_example :
  omp_bounds 2147483649 1 0 = Some (0, -2147483648) /\
  forall t, 0 <= t < 1 -> ~ in_range 2147483649 1 t 0.
Proof.
  split; [by vm_compute|].
  intros t Ht (lb & ub & Hb & Hlb & Hub).
  assert (t = 0) as -> by lia.
  vm_compute in Hb. injection Hb as <- <-. lia.
Qed.

(** C10, amended: for 1 <= [m] <= [INT_MAX] rows and [k] >= 1 threads
    (also when [k] does not divide [m] or exceeds it), every row belongs to
    the range of exactly one thread and no range leaves the rows; the [k]
    calls, taken in the order of the thread ids, do to [c] exactly what the
    serial function does; and when the arrays have the sizes the
    dimensions ask for, both give the vector of the dot products, whatever
    the order in which the calls are made. *)
Theorem run_parallel_refines {F : Type} (zero : F) (add mul : F -> F -> F)
    (a b c : list F) (m n k : Z) :
  1 <= m <= INT_MAX -> 1 <= k <= INT_MAX ->
  (forall i, 0 <= i < m ->
     exists t, 0 <= t < k /\ in_range m k t i /\
               forall t', 0 <= t' < k -> in_range m k t' i -> t' = t) /\
  (forall t i, 0 <= t < k -> in_range m k t i -> 0 <= i < m) /\
  run_parallel zero add mul a b c m n k = matrix_vector_product zero add mul a b c m n /\
  (0 <= n <= INT_MAX -> Z.of_nat (length a) = m * n ->
   Z.of_nat (length b) = n -> Z.of_nat (length c) = m ->
   exists c',
     matrix_vector_product zero add mul a b c m n = Done c' /\
     (forall i, 0 <= i < m -> c' !! Z.to_nat i = Some (dot zero add mul a b n i)) /\
     forall order, order ≡ₚ seqZ 0 k ->
                   run_threads zero add mul a b c m n k order = Done c').
Proof.
  intros Hm Hk. split; [|split; [|split]].
  - intros i Hi. by apply rows_partition.
  - intros t i Ht. by apply in_range_rows.
  - by apply run_parallel_serial.
  - intros Hn Ha Hb Hc.
    exists (set_rows zero add mul a b n c (seqZ 0 m)).
    assert (Hrows : forall i, i ∈ seqZ 0 m -> 0 <= i < m).
    { intros i Hi%elem_of_seqZ. lia. }
    split; [|split].
    + rewrite matrix_vector_product_rows by lia.
      by apply (rows_value zero add mul a b m n).
    + intros i Hi. rewrite lookup_set_rows; [|lia|intros j Hj%Hrows; lia].
      rewrite Z2Nat.id by lia. rewrite decide_True; [done|].
      apply elem_of_seqZ. lia.
    + intros order Hperm.
      assert (Hord : forall t, t ∈ order -> 0 <= t < k).
      { intros t. rewrite Hperm. intros Ht%elem_of_seqZ. lia. }
      assert (Hin : forall i, i ∈ concat (rows_of m k <$> order) <-> i ∈ seqZ 0 m).
      { intros i. rewrite <- (rows_of_concat m k) by done.
        rewrite !elem_of_concat_fmap. by setoid_rewrite Hperm. }
      rewrite run_threads_rows by done.
      rewrite (rows_value zero add mul a b m n) by (try done; intros i Hi%Hin%Hrows; done).
      f_equal. apply set_rows_same; [|intros i Hi%Hrows; lia|done].
      intros i Hi%Hin%Hrows. lia.
Qed.

Lemma run_parallel_refines_witness :
  run_parallel 0 Z.add Z.mul a32 b2 c3 3 2 2 = Done [12; 34; 56] /\
  matrix_vector_product 0 Z.add Z.mul a32 b2 c3 3 2 = Done [12; 34; 56] /\
  run_threads 0 Z.add Z.mul a32 b2 c3 3 2 2 [1; 0] = Done [12; 34; 56].
Proof.
  destruct (run_parallel_refines 0 Z.add Z.mul a32 b2 c3 3 2 2)
    as (_ & _ & Heq & Hdone); [unfold INT_MAX; lia..|].
  destruct Hdone as (c' & Hc' & _ & Hord); [unfold INT_MAX; lia|reflexivity..|].
  assert (c' = [12; 34; 56]) as ->.
  { vm_compute in Hc'. by injection Hc'. }
  split; [by rewrite Heq|]. split; [done|].
  apply Hord. vm_compute. apply perm_swap.
Defined.

(** ** Edge cases of the products *)

(** A loop [for (int i = i0; ...; i++)] whose test holds up to [INT_MAX]
    does not complete: its body fails, or [i++] overflows. *)
Lemma for_int_overflow {S : Type} (cond : Z -> bool) (body : Z -> S -> run_result S) :
  forall (fuel : nat) (i : Z) (s s' : S),
    0 <= i <= INT_MAX ->
    (forall j, i <= j <= INT_MAX -> cond j = true) ->
    (Z.to_nat (INT_MAX - i) < fuel)%nat ->
    for_int fuel cond body i s <> Done s'.
Proof.
  induction fuel as [|fuel IH]; intros i s s' Hi Hc Hfuel; [lia|].
  simpl. rewrite Hc by lia.
  destruct (body i s) as [s1| |]; [|done..].
  case_decide as Hmax; [done|]. apply IH; [lia| |lia].
  intros j Hj. apply Hc. lia.
Qed.

Lemma seq_run_inv {S : Type} (body : Z -> S -> run_result S)
    (P : S -> Prop) (Q : Z -> Prop) l s s' :
  (forall i s s1, i ∈ l -> P s -> body i s = Done s1 -> P s1 /\ Q i) ->
  P s -> seq_run body l s = Done s' -> P s' /\ Forall Q l.
Proof.
  revert s. induction l as [|i l IH]; intros s H Hs; simpl.
  - intros [= <-]. by split.
  - destruct (body i s) as [s1| |] eqn:E; [|done..].
    destruct (H i s s1) as [Hs1 Hq]; [by left|done..|].
    intros Hrun. destruct (IH s1) as [Hs' Hl]; [|done..|].
    + intros j s2 s3 Hj. apply H. by right.
    + split; [done|]. by constructor.
Qed.

Section MatVecEdges.
Context {F : Type} (zero : F) (add mul : F -> F -> F).

(** X12: the share of each thread, for 1 <= [m] <= [INT_MAX] rows:
    thread [t] of [k] handles the rows from [t * (m / k)] on, [m / k] of
    them, and the last thread [m mod k] more.  With more threads than
    rows every thread but the last does nothing, and the last one does
    all the work of the serial function. *)
Theorem omp_thread_rows (a b c : list F) (m n k t : Z) :
  1 <= m <= INT_MAX -> 1 <= k <= INT_MAX -> 0 <= t < k ->
  let count := if decide (t = k - 1) then m / k + m mod k else m / k in
  rows_of m k t = seqZ (t * (m / k)) count /\
  matrix_vector_product_omp zero add mul a b c m n k t =
    seq_run (row_body zero add mul a b n) (seqZ (t * (m / k)) count) c /\
  (m < k -> t <> k - 1 ->
   matrix_vector_product_omp zero add mul a b c m n k t = Done c) /\
  (m < k ->
   matrix_vector_product_omp zero add mul a b c m n k (k - 1) =
   matrix_vector_product zero add mul a b c m n).
Proof.
  intros Hm Hk Ht count.
  assert (Hq : 0 <= m / k) by (apply Z.div_pos; lia).
  pose proof (Z.div_mod m k ltac:(lia)) as Hdm.
  assert (Hrows : forall t', 0 <= t' < k ->
            rows_of m k t' =
            seqZ (t' * (m / k)) (if decide (t' = k - 1) then m / k + m mod k else m / k)).
  { intros t' Ht'. unfold rows_of. rewrite omp_bounds_spec by done.
    f_equal. case_decide; [subst t'|]; lia. }
  split; [by apply Hrows|]. split; [|split].
  - rewrite matrix_vector_product_omp_rows by done. by rewrite Hrows.
  - intros Hlt Hnl. rewrite matrix_vector_product_omp_rows, Hrows by done.
    rewrite decide_False by done. rewrite Z.div_small by lia. by rewrite seqZ_nil.
  - intros Hlt. rewrite matrix_vector_product_omp_rows, Hrows by lia.
    rewrite decide_True by done.
    rewrite matrix_vector_product_rows by lia.
    rewrite Z.div_small, Z.mod_small by lia. do 2 f_equal; lia.
Qed.

Lemma omp_bounds_no_rows k t :
  1 <= k <= INT_MAX -> 0 <= t < k -> omp_bounds 0 k t = Some (0, -1).
Proof.
  unfold INT_MAX. intros Hk Ht. unfold omp_bounds.
  rewrite to_size_t_id by lia. rewrite decide_False by lia.
  rewrite Z.div_0_l by lia. change (to_int 0) with 0.
  rewrite Z.mul_0_r. change (int_result 0) with (Some 0). simpl.
  rewrite (int_result_Some (k - 1)) by (unfold in_int, INT_MIN, INT_MAX; lia).
  simpl. case_decide; [done|]. done.
Qed.

(** X13: with no rows, neither function touches [c], whatever the arrays
    and the number of threads; and with a thread count that is not
    positive [run_parallel] starts no thread, so that [c] is left as it
    is, whatever the number of rows. *)
Theorem nothing_to_do (a b c : list F) (n : Z) :
  matrix_vector_product zero add mul a b c 0 n = Done c /\
  (forall k t, 1 <= k <= INT_MAX -> 0 <= t < k ->
     matrix_vector_product_omp zero add mul a b c 0 n k t = Done c) /\
  (forall k, 1 <= k <= INT_MAX -> run_parallel zero add mul a b c 0 n k = Done c) /\
  (forall m k, k <= 0 -> run_parallel zero add mul a b c m n k = Done c).
Proof.
  assert (Homp : forall k t c', 1 <= k <= INT_MAX -> 0 <= t < k ->
            matrix_vector_product_omp zero add mul a b c' 0 n k t = Done c').
  { intros k t c' Hk Ht. unfold matrix_vector_product_omp.
    by rewrite omp_bounds_no_rows. }
  split; [done|]. split; [by auto|]. split.
  - intros k Hk. unfold run_parallel.
    assert (Hall : forall l, (forall t, t ∈ l -> 0 <= t < k) ->
              seq_run (fun t c' => matrix_vector_product_omp zero add mul a b c' 0 n k t) l c
              = Done c).
    { induction l as [|t l IH]; intros Hl; simpl; [done|].
      rewrite Homp; [|done|apply Hl; by left].
      apply IH. intros t' Ht'. apply Hl. by right. }
    apply Hall. intros t Ht%elem_of_seqZ. lia.
  - intros m k Hk. unfold run_parallel. by rewrite seqZ_nil by lia.
Qed.

(** X14: the loop counters of [matrix_vector_product] are [int]s compared
    with [size_t] bounds: with more than [INT_MAX] rows, or with at least
    one row and more than [INT_MAX] columns, the function does not
    complete, whatever the arrays: it runs into undefined behaviour, the
    overflow of [i++] or [j++] at the latest. *)
Theorem int_counter_overflow (a b c : list F) (m n : Z) :
  INT_MAX < m \/ 1 <= m /\ INT_MAX < n ->
  matrix_vector_product zero add mul a b c m n = Undefined.
Proof.
  intros H.
  destruct (matrix_vector_product zero add mul a b c m n) as [c'| |] eqn:E; [|done|].
  2: { by apply matrix_vector_product_fuel in E. }
  exfalso. revert E. unfold matrix_vector_product, INT_MAX in *.
  destruct H as [Hm|[Hm Hn]].
  - apply for_int_overflow; [unfold INT_MAX; lia| |unfold INT_MAX; lia].
    unfold INT_MAX. intros j Hj. rewrite to_size_t_id by lia. apply Z.ltb_lt. lia.
  - destruct (Z.to_nat m) as [|fuel] eqn:Ef; [lia|]. simpl.
    change (to_size_t 0) with 0. rewrite (proj2 (Z.ltb_lt 0 m)) by lia.
    destruct (store c (to_ptrdiff 0) zero) as [c0|]; [|done].
    destruct (for_int (Z.to_nat n) _ _ 0 c0) as [c1| |] eqn:E1; [|done..].
    exfalso. revert E1.
    apply for_int_overflow; [unfold INT_MAX; lia| |unfold INT_MAX; lia].
    unfold INT_MAX. intros j Hj. rewrite to_size_t_id by lia. apply Z.ltb_lt. lia.
Qed.

End MatVecEdges.

Lemma omp_thread_rows_witness :
  rows_of 10 4 0 = [0; 1] /\ rows_of 10 4 3 = [6; 7; 8; 9].
Proof.
  destruct (omp_thread_rows 0 Z.add Z.mul [] [] [] 10 0 4 0) as [H0 _]; [unfold INT_MAX; lia..|].
  destruct (omp_thread_rows 0 Z.add Z.mul [] [] [] 10 0 4 3) as [H3 _]; [unfold INT_MAX; lia..|].
  split; [exact H0|exact H3].
Defined.

Lemma int_counter_overflow_witness :
  matrix_vector_product 0 Z.add Z.mul [] [] [] 2147483648 0 = Undefined.
Proof. apply int_counter_overflow. left. unfold INT_MAX. lia. Defined.

(** ** The sizes of the arrays *)

Section MatVecSizes.
Context {F : Type} (zero : F) (add mul : F -> F -> F).
Context (a b : list F) (m n : Z).
Hypothesis Hm : 1 <= m <= INT_MAX.
Hypothesis Hn : 1 <= n <= INT_MAX.

(** What a completed update [c[i] += a[i * n + j] * b[j]] shows about the
    arrays. *)
Lemma accumulate_Done_inv (c c' : list F) (i j : Z) :
  0 <= i < m -> 0 <= j < n ->
  accumulate add mul a b n i j c = Done c' ->
  length c' = length c /\
  i * n + j < Z.of_nat (length a) /\ j < Z.of_nat (length b).
Proof using Hm Hn.
  unfold INT_MAX in *. intros Hi Hj. unfold accumulate, load, store.
  assert (0 <= i * n + j < m * n) by nia.
  assert (m * n < 4611686018427387904) by nia.
  rewrite (to_ptrdiff_id i), (to_ptrdiff_id j) by lia.
  rewrite (to_size_t_id i), (to_size_t_id j) by lia.
  rewrite (to_size_t_id (i * n)) by nia.
  rewrite (to_size_t_id (i * n + j)), (to_ptrdiff_id (i * n + j)) by lia.
  rewrite !decide_True by lia.
  destruct (c !! Z.to_nat i) as [ci|]; [|done].
  destruct (a !! Z.to_nat (i * n + j)) as [x|] eqn:Ea; [|done].
  destruct (b !! Z.to_nat j) as [y|] eqn:Eb; [|done].
  case_decide; [|done]. intros [= <-]. rewrite length_insert.
  apply lookup_lt_Some in Ea, Eb. lia.
Qed.

Lemma row_body_Done_inv (c c' : list F) (i : Z) :
  0 <= i < m ->
  row_body zero add mul a b n i c = Done c' ->
  length c' = length c /\ i < Z.of_nat (length c) /\
  (i * n + (n - 1) < Z.of_nat (length a) /\ n - 1 < Z.of_nat (length b)).
Proof using Hm Hn.
  intros Hi. unfold row_body, store. unfold INT_MAX in *.
  rewrite to_ptrdiff_id by lia. case_decide as Hc; [|done].
  rewrite (for_int_lt_seq _ n) by (unfold INT_MAX; lia). rewrite Z.sub_0_r.
  intros Hrun.
  apply (seq_run_inv _ (fun c1 => length c1 = length c)
           (fun j => i * n + j < Z.of_nat (length a) /\ j < Z.of_nat (length b)))
    in Hrun as [Hlen Hall].
  - split; [done|]. split; [lia|].
    rewrite Forall_forall in Hall. apply Hall. apply elem_of_seqZ. lia.
  - intros j c1 c2 Hj%elem_of_seqZ Hc1 Hacc.
    apply accumulate_Done_inv in Hacc as (? & ? & ?); [|lia..].
    split; [congruence|done].
  - by rewrite length_insert.
Qed.

Lemma accumulate_value_ge (c : list F) (i j : Z) (acc : F) :
  m * n <= Z.of_nat (length a) -> n <= Z.of_nat (length b) ->
  m <= Z.of_nat (length c) -> 0 <= i < m -> 0 <= j < n ->
  accumulate add mul a b n i j (<[Z.to_nat i := acc]> c) =
  Done (<[Z.to_nat i :=
           add acc (mul (default zero (a !! Z.to_nat (i * n + j)))
                        (default zero (b !! Z.to_nat j)))]> c).
Proof using Hm Hn.
  unfold INT_MAX in *. intros Ha Hb Hc Hi Hj. unfold accumulate, load, store.
  assert (0 <= i * n + j < m * n) by nia.
  assert (m * n < 4611686018427387904) by nia.
  rewrite (to_ptrdiff_id i), (to_ptrdiff_id j) by lia.
  rewrite (to_size_t_id i), (to_size_t_id j) by lia.
  rewrite (to_size_t_id (i * n)) by nia.
  rewrite (to_size_t_id (i * n + j)), (to_ptrdiff_id (i * n + j)) by lia.
  rewrite length_insert. rewrite !decide_True by lia.
  rewrite list_lookup_insert_eq by lia.
  destruct (lookup_lt_is_Some_2 a (Z.to_nat (i * n + j))) as [x ->]; [lia|].
  destruct (lookup_lt_is_Some_2 b (Z.to_nat j)) as [y ->]; [lia|].
  simpl. rewrite decide_True by lia. by rewrite list_insert_insert_eq.
Qed.

Lemma accumulate_all_ge (c : list F) (i : Z) (l : list Z) (acc : F) :
  m * n <= Z.of_nat (length a) -> n <= Z.of_nat (length b) ->
  m <= Z.of_nat (length c) -> 0 <= i < m ->
  (forall j, j ∈ l -> 0 <= j < n) ->
  seq_run (fun j c => accumulate add mul a b n i j c) l (<[Z.to_nat i := acc]> c) =
  Done (<[Z.to_nat i :=
           foldl (fun acc j => add acc (mul (default zero (a !! Z.to_nat (i * n + j)))
                                            (default zero (b !! Z.to_nat j)))) acc l]> c).
Proof using Hm Hn.
  intros Ha Hb Hc Hi. revert acc. induction l as [|j l IH]; intros acc Hl; simpl; [done|].
  rewrite accumulate_value_ge; [|done..|apply Hl; by left].
  apply IH. intros j' Hj'. apply Hl. by right.
Qed.

Lemma row_body_value_ge (c : list F) (i : Z) :
  m * n <= Z.of_nat (length a) -> n <= Z.of_nat (length b) ->
  m <= Z.of_nat (length c) -> 0 <= i < m ->
  row_body zero add mul a b n i c = Done (<[Z.to_nat i := dot zero add mul a b n i]> c).
Proof using Hm Hn.
  intros Ha Hb Hc Hi. unfold row_body, store. unfold INT_MAX in *.
  rewrite to_ptrdiff_id by lia. rewrite decide_True by lia.
  rewrite (for_int_lt_seq _ n) by (unfold INT_MAX; lia). rewrite Z.sub_0_r.
  rewrite accumulate_all_ge; [done..|].
  intros j Hj%elem_of_seqZ. lia.
Qed.

Lemma rows_value_ge (c : list F) (l : list Z) :
  m * n <= Z.of_nat (length a) -> n <= Z.of_nat (length b) ->
  m <= Z.of_nat (length c) -> (forall i, i ∈ l -> 0 <= i < m) ->
  seq_run (row_body zero add mul a b n) l c = Done (set_rows zero add mul a b n c l).
Proof using Hm Hn.
  intros Ha Hb. revert c. induction l as [|i l IH]; intros c Hc Hl; simpl; [done|].
  rewrite row_body_value_ge; [|done..|apply Hl; by left].
  apply IH; [by rewrite length_insert|].
  intros j Hj. apply Hl. by right.
Qed.
End MatVecSizes.

(** X15: for dimensions 1 <= [m], [n] <= [INT_MAX],
    [matrix_vector_product] completes exactly when the arrays are large
    enough: [a] has at least [m * n] elements, [b] at least [n] and [c] at
    least [m].  It then puts the dot products into [c[0]], ...,
    [c[m - 1]] and leaves the rest of [c] as it was; otherwise it reads
    or writes outside an array. *)
Theorem product_defined_iff {F : Type} (zero : F) (add mul : F -> F -> F)
    (a b c : list F) (m n : Z) :
  1 <= m <= INT_MAX -> 1 <= n <= INT_MAX ->
  let fits := m * n <= Z.of_nat (length a) /\ n <= Z.of_nat (length b) /\
              m <= Z.of_nat (length c) in
  (fits ->
   exists c', matrix_vector_product zero add mul a b c m n = Done c' /\
     length c' = length c /\
     forall i : nat,
       c' !! i = if decide (Z.of_nat i < m)
                 then Some (dot zero add mul a b n (Z.of_nat i)) else c !! i) /\
  (~ fits -> matrix_vector_product zero add mul a b c m n = Undefined).
Proof.
  intros Hm Hn fits.
  assert (Hrows : forall i, i ∈ seqZ 0 m -> 0 <= i < m).
  { intros i Hi%elem_of_seqZ. lia. }
  rewrite matrix_vector_product_rows by lia. split.
  - intros (Ha & Hb & Hc). exists (set_rows zero add mul a b n c (seqZ 0 m)).
    split; [by apply (rows_value_ge zero add mul a b m n)|].
    split; [apply length_set_rows|].
    intros i. destruct (decide (i < length c)%nat) as [Hi|Hi].
    + rewrite lookup_set_rows; [|done|intros j Hj%Hrows; lia].
      destruct (decide (Z.of_nat i < m)) as [Hlt|Hge].
      * rewrite decide_True; [done|]. apply elem_of_seqZ. lia.
      * rewrite decide_False; [done|]. intros Hin%Hrows. lia.
    + rewrite decide_False by lia.
      rewrite !lookup_ge_None_2; [done|lia|rewrite length_set_rows; lia].
  - intros Hno.
    destruct (seq_run (row_body zero add mul a b n) (seqZ 0 m) c) as [c'| |] eqn:E; [|done|].
    2: { apply seq_run_fuel in E; [done|]. intros i c1. apply row_body_fuel. }
    exfalso. apply Hno.
    apply (seq_run_inv _ (fun c1 => length c1 = length c)
             (fun i => i < Z.of_nat (length c) /\
                       i * n + (n - 1) < Z.of_nat (length a) /\
                       n - 1 < Z.of_nat (length b)))
      in E as [_ Hall]; [| |done].
    + rewrite Forall_forall in Hall.
      destruct (Hall (m - 1)) as (? & ? & ?); [apply elem_of_seqZ; lia|].
      unfold fits. split; [nia|lia].
    + intros i c1 c2 Hi%Hrows Hc1 Hrow.
      apply (row_body_Done_inv zero add mul a b m n Hm Hn) in Hrow as (? & ? & ?); [|done].
      split; [congruence|]. split; [lia|done].
Qed.

Lemma product_defined_iff_witness :
  matrix_vector_product 0 Z.add Z.mul a32 b2 [0; 0] 3 2 = Undefined.
Proof.
  apply product_defined_iff; [unfold INT_MAX; lia..|].
  simpl. lia.
Defined.
